(** * InputDeviceListener: a shallow embedding of [InputDeviceListener.h]

    The development follows the Linux branch of the header:
    - [StdString]: the [std::string] members the parser uses;
    - [Device]: the nested class [InputDevice];
    - [Discovery]: [availableInputDevices], the parser of
      [/proc/bus/input/devices];
    - [Pool]: the operating-system state the class talks to and
      [openInputDevices] / [closeInputDevices];
    - [Worker]: the thread body [run] as a transition system over the
      observations the thread makes of its environment;
    - [Lifecycle]: [start], [stop], [listen], [shutdown] and the threads they
      create. *)

From Stdlib Require Import ZArith List String Ascii Bool Arith Lia Sorted Permutation.
Import ListNotations.

Open Scope string_scope.
Open Scope list_scope.

(* ------------------------------------------------------------------------- *)
(** ** [std::string] members used by the header *)

Module StdString.

(** The line feed, the double quote and the blank as characters. *)
Definition newline : ascii := "010"%char.
Definition dquote : ascii := "034"%char.
Definition space : ascii := " "%char.

(** [s.empty()] *)
Definition empty (s : string) : bool :=
  match s with
  | EmptyString => true
  | String _ _ => false
  end.

(** [s.find(pat, pos)]; [None] is [std::string::npos]. *)
Definition find (pat : string) (pos : nat) (s : string) : option nat :=
  index pos pat s.

(** [s.find(pat) == 0] *)
Definition starts_with (pat s : string) : bool :=
  match find pat 0 s with
  | Some O => true
  | _ => false
  end.

(** [s.substr(pos, len)] for [pos <= s.size()]; the count is clamped to the
    end of the string. *)
Definition substr (pos len : nat) (s : string) : string :=
  substring pos len s.

(** [s.substr(pos)] for [pos <= s.size()]. *)
Fixpoint substr_from (pos : nat) (s : string) : string :=
  match pos, s with
  | O, _ => s
  | S _, EmptyString => EmptyString
  | S p, String _ s' => substr_from p s'
  end.

(** [s.find_first_not_of(c)] *)
Fixpoint find_first_not_of (c : ascii) (s : string) : option nat :=
  match s with
  | EmptyString => None
  | String a s' =>
      if Ascii.eqb a c
      then option_map S (find_first_not_of c s')
      else Some O
  end.

(** [s.find_last_not_of(c)] *)
Fixpoint find_last_not_of (c : ascii) (s : string) : option nat :=
  match s with
  | EmptyString => None
  | String a s' =>
      match find_last_not_of c s' with
      | Some k => Some (S k)
      | None => if Ascii.eqb a c then None else Some O
      end
  end.

(** [s.erase(0, count)], where [count] may be [npos] (erase everything). *)
Definition erase_front (count : option nat) (s : string) : string :=
  match count with
  | Some n => substr_from n s
  | None => EmptyString
  end.

(** [s.erase(pos)]: keep the first [pos] characters. *)
Fixpoint erase_from (pos : nat) (s : string) : string :=
  match pos, s with
  | O, _ => EmptyString
  | S _, EmptyString => EmptyString
  | S p, String a s' => String a (erase_from p s')
  end.

(** [find_last_not_of(c) + 1] in [size_t] arithmetic: [npos + 1] wraps
    around to [0]. *)
Definition succ_npos (r : option nat) : nat :=
  match r with
  | Some k => S k
  | None => O
  end.

(** The tokens [std::getline(ss, token, delim)] yields until it fails.  A
    token is returned whenever a delimiter or at least one character was
    extracted, so the text after the last delimiter is a token only when
    it is not empty. *)
Fixpoint getline_all (delim : ascii) (tok s : string) : list string :=
  match s with
  | EmptyString => if empty tok then [] else [tok]
  | String a s' =>
      if Ascii.eqb a delim
      then tok :: getline_all delim EmptyString s'
      else getline_all delim (tok ++ String a EmptyString) s'
  end.

Definition getlines (delim : ascii) (s : string) : list string :=
  getline_all delim EmptyString s.

(** [n] copies of the character [c]. *)
Fixpoint replicate (n : nat) (c : ascii) : string :=
  match n with
  | O => EmptyString
  | S n' => String c (replicate n' c)
  end.

End StdString.

(* ------------------------------------------------------------------------- *)
(** ** The class [InputDevice] (the parts that do not touch the system) *)

Module Device.

(** The four data members; [m_fd = -1] means that no descriptor is held. *)
Record InputDevice : Type := mkDevice {
  m_fd : Z;
  m_id : string;
  m_name : string;
  m_handler : string
}.

(** The constructor [InputDevice(id, name, handler)]. *)
Definition make (id name handler : string) : InputDevice :=
  {| m_fd := (-1)%Z; m_id := id; m_name := name; m_handler := handler |}.

(** [fd()], [id()], [name()] and [operator int()] as the header writes
    them. *)
Definition fd (d : InputDevice) : Z := m_fd d.
Definition id (d : InputDevice) : string := m_name d.
Definition name (d : InputDevice) : string := m_id d.
Definition to_int (d : InputDevice) : Z := m_fd d.

(** [operator==] *)
Definition equal (d other : InputDevice) : bool :=
  if negb (StdString.empty (m_handler d)) && String.eqb (m_handler d) (m_handler other)
  then true
  else String.eqb (m_id d) (m_id other).

(** [operator<] *)
Definition less (d other : InputDevice) : bool :=
  (m_fd d <? m_fd other)%Z.

(** What the move assignment leaves in its source: the descriptor is reset
    and the three strings have been moved out (they are left empty). *)
Definition moved_from : InputDevice :=
  {| m_fd := (-1)%Z; m_id := ""; m_name := ""; m_handler := "" |}.

End Device.

(* ------------------------------------------------------------------------- *)
(** ** [availableInputDevices] *)

Module Discovery.
Import StdString Device.

Definition devicePath : string := "/dev/input/".
Definition idPrefix : string := "I: ".
Definition namePrefix : string := "N: Name=".
Definition handlerPrefix : string := "H: Handlers=".
Definition eventPrefix : string := "B: EV=".
Definition sep : string := String newline (String newline EmptyString).

(** The table [bits]. *)
Definition bits : list Z := [0x01; 0x02; 0x04; 0x88]%Z.

(** Event classes of [<linux/input.h>]. *)
Definition EV_SYN : Z := 0.
Definition EV_KEY : Z := 1.
Definition EV_REL : Z := 2.
Definition EV_ABS : Z := 3.
Definition EV_MSC : Z := 4.

(** The loop that cuts the file into blocks at blank lines.  [begin_] and
    the result of [find] are positions in [content]; the loop is run with
    [fuel] iterations at most. *)
Fixpoint splitLoop (fuel : nat) (content : string) (begin_ : nat)
    (deviceInfo : list string) : list string :=
  match fuel with
  | O => deviceInfo
  | S fuel' =>
      match find sep begin_ content with
      | None => deviceInfo
      | Some end_ =>
          let token := substr begin_ (end_ - begin_) content in
          if negb (empty token)
          then splitLoop fuel' content
                 (begin_ + String.length token + String.length sep)
                 (deviceInfo ++ [token])
          else splitLoop fuel' content (begin_ + String.length sep) deviceInfo
      end
  end.

(** Every iteration moves [begin_] forward, so [S (length content)]
    iterations are enough (lemma [splitLoop_fuel] below). *)
Definition splitBlocks (content : string) : list string :=
  splitLoop (S (String.length content)) content 0 [].

(** The same loop with the end of the loop told apart from the end of the
    fuel: [None] when [fuel] iterations have not brought [find] to
    [npos]. *)
Fixpoint splitLoopWithin (fuel : nat) (content : string) (begin_ : nat)
    (deviceInfo : list string) : option (list string) :=
  match find sep begin_ content with
  | None => Some deviceInfo
  | Some end_ =>
      match fuel with
      | O => None
      | S fuel' =>
          let token := substr begin_ (end_ - begin_) content in
          if negb (empty token)
          then splitLoopWithin fuel' content
                 (begin_ + String.length token + String.length sep)
                 (deviceInfo ++ [token])
          else splitLoopWithin fuel' content (begin_ + String.length sep)
                 deviceInfo
      end
  end.

(** The non-empty lines of one block. *)
Definition propsOf (info : string) : list string :=
  filter (fun token => negb (empty token)) (getlines newline info).

(** [std::stoi(std::string{c}, nullptr, 16)] on a one-character string:
    the value of a hexadecimal digit, and [None] where [std::stoi] throws
    [std::invalid_argument]. *)
Definition stoi16 (c : ascii) : option Z :=
  let n := Z.of_nat (nat_of_ascii c) in
  if ((48 <=? n) && (n <=? 57))%Z then Some (n - 48)%Z
  else if ((97 <=? n) && (n <=? 102))%Z then Some (n - 87)%Z
  else if ((65 <=? n) && (n <=? 70))%Z then Some (n - 55)%Z
  else None.

Definition isEventClass (p : Z) : bool :=
  ((p =? EV_KEY) || (p =? EV_REL) || (p =? EV_ABS))%Z.

(** The loop over [k] for one nibble [n]; [i], [j] and [isInputDevice] are
    the variables of the same names.  The [break] leaves the loop without
    the increment of [i]. *)
Fixpoint scanNibble (n : Z) (masks : list Z) (i j : Z) (isInputDevice : bool)
    : Z * Z * bool :=
  match masks with
  | [] => (i, j, isInputDevice)
  | mask :: masks' =>
      if negb (Z.land n mask =? 0)%Z && isEventClass (i + j)
      then (i, j, true)
      else
        let i' := (i + 1)%Z in
        if (i' >? 9)%Z
        then scanNibble n masks' 0%Z (j + 10)%Z isInputDevice
        else scanNibble n masks' i' j isInputDevice
  end.

(** The loop over the characters of the bitmask, given least significant
    nibble first (the reverse iterators of the source). *)
Fixpoint scanEV (rev_ev : list ascii) (i j : Z) (isInputDevice : bool)
    : option bool :=
  match rev_ev with
  | [] => Some isInputDevice
  | c :: rest =>
      match stoi16 c with
      | None => None
      | Some n =>
          let '(i', j', flag') := scanNibble n bits i j isInputDevice in
          scanEV rest i' j' flag'
      end
  end.

(** The four locals of one iteration of the loop over the blocks. *)
Record BlockState : Type := mkBlock {
  id : string;
  name : string;
  handler : string;
  isInputDevice : bool
}.

Definition initBlock : BlockState :=
  {| id := ""; name := ""; handler := ""; isInputDevice := false |}.

(** The trimming of the name (lines 233 to 237). *)
Definition trimName (name : string) : string :=
  if negb (empty name)
  then
    let name1 := erase_front (find_first_not_of dquote name) name in
    erase_from (succ_npos (find_last_not_of dquote name1)) name1
  else name.

(** The first token of a handlers line that starts with ["event"]. *)
Definition eventToken (rest : string) : option string :=
  List.find (fun token => negb (empty token) && starts_with "event" token)
            (getlines space rest).

(** One iteration of the loop over the lines of a block; [None] when
    [std::stoi] throws. *)
Definition parseProp (st : BlockState) (prop : string) : option BlockState :=
  if starts_with idPrefix prop then
    Some {| id := substr_from (String.length idPrefix) prop;
            name := name st; handler := handler st;
            isInputDevice := isInputDevice st |}
  else if starts_with namePrefix prop then
    Some {| id := id st;
            name := trimName (substr_from (String.length namePrefix) prop);
            handler := handler st;
            isInputDevice := isInputDevice st |}
  else if starts_with handlerPrefix prop then
    match eventToken (substr_from (String.length handlerPrefix) prop) with
    | Some token =>
        Some {| id := id st; name := name st;
                handler := devicePath ++ token;
                isInputDevice := isInputDevice st |}
    | None => Some st
    end
  else if starts_with eventPrefix prop then
    let ev := substr_from (String.length eventPrefix) prop in
    match scanEV (rev (list_ascii_of_string ev)) 0%Z 0%Z (isInputDevice st) with
    | Some flag =>
        Some {| id := id st; name := name st; handler := handler st;
                isInputDevice := flag |}
    | None => None
    end
  else Some st.

Fixpoint parseProps (st : BlockState) (props : list string) : option BlockState :=
  match props with
  | [] => Some st
  | prop :: props' =>
      match parseProp st prop with
      | Some st' => parseProps st' props'
      | None => None
      end
  end.

(** The test of line 282 and the [emplace_back]. *)
Definition emit (st : BlockState) : list InputDevice :=
  if isInputDevice st && negb (empty (handler st))
  then [Device.make (id st) (name st) (handler st)]
  else [].

(** The body of the loop over the blocks: the descriptors one block adds. *)
Definition parseBlock (info : string) : option (list InputDevice) :=
  let props := propsOf info in
  match props with
  | [] => Some []
  | _ =>
      match parseProps initBlock props with
      | Some st => Some (emit st)
      | None => None
      end
  end.

Fixpoint parseBlocks (deviceInfo : list string) (devices : list InputDevice)
    : option (list InputDevice) :=
  match deviceInfo with
  | [] => Some devices
  | info :: rest =>
      match parseBlock info with
      | Some ds => parseBlocks rest (devices ++ ds)
      | None => None
      end
  end.

(** [availableInputDevices(devices)].  [file] is the content of
    [/proc/bus/input/devices], or [None] when the stream did not open; the
    result is the vector after the call, or [None] when [std::stoi]
    throws. *)
Definition availableInputDevices (file : option string)
    (devices : list InputDevice) : option (list InputDevice) :=
  match file with
  | None => Some devices
  | Some content => parseBlocks (splitBlocks content) devices
  end.

End Discovery.

(* ------------------------------------------------------------------------- *)
(** ** The system calls, [openInputDevices] and [closeInputDevices] *)

Module Pool.
Import StdString Device.

(** The calls that acquire and release descriptors, as they are logged. *)
Inductive Syscall : Type :=
| SysOpen (path : string) (ret : Z)
| SysClose (fd : Z).

(** The part of the operating system the class reads and changes. *)
Record World : Type := mkWorld {
  registry : option string;  (* [/proc/bus/input/devices]; [None]: it does not open *)
  present : list string;     (* the paths with [access(path, F_OK) == 0] *)
  readable : list string;    (* the paths [open(path, O_RDONLY)] succeeds on *)
  fdtable : list Z;          (* the descriptors the process holds *)
  calls : list Syscall       (* the [open] and [close] calls so far, oldest first *)
}.

Definition mem_string (s : string) (l : list string) : bool :=
  existsb (String.eqb s) l.

Definition mem_fd (fd : Z) (l : list Z) : bool :=
  existsb (Z.eqb fd) l.

(** [access(path, F_OK) == 0] *)
Definition sys_access (w : World) (path : string) : bool :=
  mem_string path (present w).

(** The lowest descriptor number that is not in use, which is the one
    [open] returns. *)
Fixpoint first_free (fuel : nat) (n : Z) (table : list Z) : Z :=
  match fuel with
  | O => n
  | S fuel' => if mem_fd n table then first_free fuel' (n + 1)%Z table else n
  end.

Definition lowest_free (table : list Z) : Z :=
  first_free (List.length table) 0%Z table.

(** [open(path, O_RDONLY)] *)
Definition sys_open (w : World) (path : string) : Z * World :=
  if mem_string path (readable w)
  then
    let fd := lowest_free (fdtable w) in
    (fd, {| registry := registry w; present := present w;
            readable := readable w; fdtable := fd :: fdtable w;
            calls := calls w ++ [SysOpen path fd] |})
  else
    ((-1)%Z, {| registry := registry w; present := present w;
                readable := readable w; fdtable := fdtable w;
                calls := calls w ++ [SysOpen path (-1)%Z] |}).

(** [close(fd)] *)
Definition sys_close (w : World) (fd : Z) : World :=
  {| registry := registry w; present := present w; readable := readable w;
     fdtable := filter (fun x => negb (Z.eqb x fd)) (fdtable w);
     calls := calls w ++ [SysClose fd] |}.

(** [InputDevice::isOpened] *)
Definition isOpened (w : World) (d : InputDevice) : bool :=
  if sys_access w (m_handler d)
  then (m_fd d =? -1)%Z
  else false.

(** [InputDevice::open]; the message [perror] prints on a failed [open] is
    not part of the model. *)
Definition open (w : World) (d : InputDevice) : bool * World * InputDevice :=
  if negb (m_fd d =? -1)%Z then (true, w, d)
  else if empty (m_handler d) then (false, w, d)
  else
    let '(fd, w') := sys_open w (m_handler d) in
    if (fd <? 0)%Z then (false, w', d)
    else (true, w', {| m_fd := fd; m_id := m_id d; m_name := m_name d;
                       m_handler := m_handler d |}).

(** [InputDevice::close] *)
Definition close (w : World) (d : InputDevice) : World * InputDevice :=
  if negb (m_fd d =? -1)%Z
  then (sys_close w (m_fd d),
        {| m_fd := (-1)%Z; m_id := m_id d; m_name := m_name d;
           m_handler := m_handler d |})
  else (w, d).

(** An [fd_set] as the list of the descriptors in it.  The macros are
    defined in C for descriptors from 0 up to [FD_SETSIZE] only: with any
    other value (the -1 of a descriptor without a handle) the list of the
    model says nothing about the real set, and what is proved about the
    contents of a set is proved for sets built from such descriptors. *)
Definition fd_set : Type := list Z.
Definition FD_ZERO : fd_set := [].
Definition FD_SET (fd : Z) (s : fd_set) : fd_set :=
  if mem_fd fd s then s else s ++ [fd].
Definition FD_CLR (fd : Z) (s : fd_set) : fd_set :=
  filter (fun x => negb (Z.eqb x fd)) s.
Definition FD_ISSET (fd : Z) (s : fd_set) : bool := mem_fd fd s.

(** [std::find_if(devices.begin(), devices.end(), pred)] as an index;
    [None] is [devices.end()]. *)
Fixpoint find_if (pred : InputDevice -> bool) (devices : list InputDevice)
    : option nat :=
  match devices with
  | [] => None
  | dev :: rest =>
      if pred dev then Some O else option_map S (find_if pred rest)
  end.

(** Assignment through an iterator: [devices[k] = d]. *)
Fixpoint assign (k : nat) (d : InputDevice) (devices : list InputDevice)
    : list InputDevice :=
  match k, devices with
  | _, [] => []
  | O, _ :: rest => d :: rest
  | S k', dev :: rest => dev :: assign k' d rest
  end.

(** The variables the loop of [openInputDevices] reads and writes. *)
Record Recon : Type := mkRecon {
  world : World;
  allfds : fd_set;
  devices : list InputDevice;
  openedDevices : list InputDevice
}.

(** One iteration of the loop over [allDevices] (lines 298 to 319).  Moving
    [*dIt] out of [devices] leaves a moved-from element in its place. *)
Definition reconcileOne (st : Recon) (it : InputDevice) : Recon :=
  let kept :=
    match find_if (fun dev => equal it dev) (devices st) with
    | Some k =>
        let dIt := nth k (devices st) moved_from in
        if isOpened (world st) dIt
        then Some {| world := world st;
                     allfds := FD_SET (to_int dIt) (allfds st);
                     devices := assign k moved_from (devices st);
                     openedDevices := openedDevices st ++ [dIt] |}
        else None
    | None => None
    end in
  match kept with
  | Some st' => st'
  | None =>
      let '(ok, w', it') := open (world st) it in
      if ok
      then {| world := w';
              allfds := FD_SET (to_int it') (allfds st);
              devices := devices st;
              openedDevices := openedDevices st ++ [it'] |}
      else {| world := w'; allfds := allfds st; devices := devices st;
              openedDevices := openedDevices st |}
  end.

(** [std::sort] with [std::less<InputDevice>]: an insertion sort on
    [m_fd]. *)
Fixpoint insert_sorted (d : InputDevice) (l : list InputDevice)
    : list InputDevice :=
  match l with
  | [] => [d]
  | x :: rest => if less x d then x :: insert_sorted d rest else d :: x :: rest
  end.

Definition sort (l : list InputDevice) : list InputDevice :=
  fold_right insert_sorted [] l.

(** The destructor of a vector of descriptors: [close] on every element. *)
Fixpoint destroy (w : World) (l : list InputDevice) : World :=
  match l with
  | [] => w
  | d :: rest => destroy (fst (close w d)) rest
  end.

(** [openInputDevices(allfds, devices)]: the world, the multiplex set and
    the pool after the call; [None] when discovery throws.  The vector
    swapped out of [devices] is destroyed when the function returns;
    [allDevices] holds no descriptor then, as every descriptor that was
    opened has been moved into [openedDevices]. *)
Definition openInputDevices (w : World) (devices : list InputDevice)
    : option (World * fd_set * list InputDevice) :=
  match Discovery.availableInputDevices (registry w) [] with
  | None => None
  | Some allDevices =>
      let st := fold_left reconcileOne allDevices
                  {| world := w; allfds := FD_ZERO; devices := devices;
                     openedDevices := [] |} in
      let sorted := sort (openedDevices st) in
      Some (destroy (world st) (Pool.devices st), allfds st, sorted)
  end.

(** [closeInputDevices(devices)] *)
Fixpoint closeInputDevices (w : World) (devices : list InputDevice)
    : World * list InputDevice :=
  match devices with
  | [] => (w, [])
  | device :: rest =>
      let '(w1, device') := close w device in
      let '(w2, rest') := closeInputDevices w1 rest in
      (w2, device' :: rest')
  end.

(** The handles of a pool, and the test that all of them are present. *)
Definition handles (pool : list InputDevice) : list Z := map m_fd pool.

Definition allOpen (pool : list InputDevice) : bool :=
  forallb (fun d => negb (m_fd d =? -1)%Z) pool.

End Pool.

(* ------------------------------------------------------------------------- *)
(** ** The thread body [run] *)

Module Worker.
Import Device Pool.

(** What the thread shares with the rest of the process: the two atomic
    members, the operating-system state, and the number of times a
    [quitPromise] has been given its value. *)
Record Shared : Type := mkShared {
  m_isRunning : bool;
  m_lastOperateTime : Z;
  os : World;
  completions : nat
}.

(** What the environment answers at the points where the thread asks. *)
Inductive Obs : Type :=
| Tau                       (* nothing is asked: a load of [m_isRunning], the exit *)
| Clock (t : Z)             (* [getCurrentTime()] returned [t] *)
| Files (reg : option string) (pres rd : list string)
                            (* the registry and the device files at line 350 *)
| Select (r : Z) (ready : list Z)
                            (* [select] returned [r] and left [ready] in [rfds] *)
| Read (n : Z) (type : Z).  (* [read] returned [n]; [event.type] after a full read *)

(** The places of [run] where the thread can be. *)
Inductive Pc : Type :=
| AtEntry                (* line 346 *)
| OuterTest              (* line 348 *)
| OuterOpen              (* line 350 *)
| InnerInit              (* line 358 *)
| InnerTest              (* line 359 *)
| InnerNow               (* line 361 *)
| InnerSelect            (* line 372 *)
| DrainRead (k : nat)    (* line 387, the iterator at element [k] *)
| DrainStamp (k : nat)   (* line 392 *)
| Leaving                (* line 410 *)
| Finished               (* [run] has returned *)
| Terminated.            (* an exception left [run] *)

(** What the thread does besides its stores to the shared members. *)
Inductive Action : Type :=
| SleepFor (ms : Z)
| CallSelect (nfds : Z) (fds : fd_set)
| Store (t : Z)
| SetValue (v : bool).

(** The locals of [run]. *)
Record Locals : Type := mkLocals {
  pc : Pc;
  devices : list InputDevice;
  allfds : fd_set;
  rfds : fd_set;
  now : Z;
  last : Z;
  isListening : bool;
  ret : Z;
  actions : list Action
}.

Definition spawn : Locals :=
  {| pc := AtEntry; devices := []; allfds := []; rfds := []; now := 0%Z;
     last := 0%Z; isListening := false; ret := (-1)%Z; actions := [] |}.

Definition goto (p : Pc) (w : Locals) : Locals :=
  {| pc := p; devices := devices w; allfds := allfds w; rfds := rfds w;
     now := now w; last := last w; isListening := isListening w;
     ret := ret w; actions := actions w |}.

Definition act (a : Action) (w : Locals) : Locals :=
  {| pc := pc w; devices := devices w; allfds := allfds w; rfds := rfds w;
     now := now w; last := last w; isListening := isListening w;
     ret := ret w; actions := actions w ++ [a] |}.

Definition set_times (n l : Z) (w : Locals) : Locals :=
  {| pc := pc w; devices := devices w; allfds := allfds w; rfds := rfds w;
     now := n; last := l; isListening := isListening w;
     ret := ret w; actions := actions w |}.

Definition set_pool (fds : fd_set) (ds : list InputDevice) (w : Locals) : Locals :=
  {| pc := pc w; devices := ds; allfds := fds; rfds := rfds w;
     now := now w; last := last w; isListening := isListening w;
     ret := ret w; actions := actions w |}.

Definition set_rfds (fds : fd_set) (w : Locals) : Locals :=
  {| pc := pc w; devices := devices w; allfds := allfds w; rfds := fds;
     now := now w; last := last w; isListening := isListening w;
     ret := ret w; actions := actions w |}.

Definition set_listening (b : bool) (w : Locals) : Locals :=
  {| pc := pc w; devices := devices w; allfds := allfds w; rfds := rfds w;
     now := now w; last := last w; isListening := b;
     ret := ret w; actions := actions w |}.

Definition set_ret (r : Z) (w : Locals) : Locals :=
  {| pc := pc w; devices := devices w; allfds := allfds w; rfds := rfds w;
     now := now w; last := last w; isListening := isListening w;
     ret := r; actions := actions w |}.

Definition set_os (wld : World) (sh : Shared) : Shared :=
  {| m_isRunning := m_isRunning sh; m_lastOperateTime := m_lastOperateTime sh;
     os := wld; completions := completions sh |}.

Definition store_time (t : Z) (sh : Shared) : Shared :=
  {| m_isRunning := m_isRunning sh; m_lastOperateTime := t;
     os := os sh; completions := completions sh |}.

Definition store_running (b : bool) (sh : Shared) : Shared :=
  {| m_isRunning := b; m_lastOperateTime := m_lastOperateTime sh;
     os := os sh; completions := completions sh |}.

Definition complete (sh : Shared) : Shared :=
  {| m_isRunning := m_isRunning sh; m_lastOperateTime := m_lastOperateTime sh;
     os := os sh; completions := S (completions sh) |}.

(** The file system as the thread finds it, with the descriptor table and
    the call log of the process. *)
Definition refresh (reg : option string) (pres rd : list string) (wld : World)
    : World :=
  {| registry := reg; present := pres; readable := rd;
     fdtable := fdtable wld; calls := calls wld |}.

(** [sizeof(struct input_event)] and the test of line 390. *)
Definition sizeof_event : Z := 24.

Definition isInteraction (type : Z) : bool :=
  ((type =? Discovery.EV_KEY) || (type =? Discovery.EV_REL)
   || (type =? Discovery.EV_ABS))%Z.

(** The staleness test of line 362.  [time_t] is a signed integer of 64
    bits; the subtraction is the one of the source as long as it does not
    overflow, which is so for the readings of the monotonic clock, none of
    which is negative. *)
Definition stale (last now : Z) : bool := (last - now >? 5)%Z.

(** The end of one pass of the inner loop (line 406). *)
Definition endPass (w : Locals) : Locals :=
  goto InnerTest (act (SleepFor 1) w).

(** The loop of line 383 from element [k] on, up to the next [read]. *)
Fixpoint drainFrom (k : nat) (rest : list InputDevice) (w : Locals) : Locals :=
  match rest with
  | [] => endPass w
  | it :: rest' =>
      if FD_ISSET (to_int it) (rfds w)
      then goto (DrainRead k) w
      else drainFrom (S k) rest' w
  end.

Definition drain (k : nat) (w : Locals) : Locals :=
  drainFrom k (skipn k (devices w)) w.

(** One step of the thread. [None]: the observation is not the one the
    thread asks for at this place, or the thread has ended. *)
Definition step (o : Obs) (sh : Shared) (w : Locals) : option (Shared * Locals) :=
  match pc w, o with
  | AtEntry, Clock t =>
      Some (sh, goto OuterTest (set_times t t w))
  | OuterTest, Tau =>
      if m_isRunning sh
      then Some (sh, goto OuterOpen w)
      else Some (sh, goto Leaving w)
  | OuterOpen, Files reg pres rd =>
      let wld := refresh reg pres rd (os sh) in
      match openInputDevices wld (devices w) with
      | None => Some (set_os wld sh, goto Terminated w)
      | Some (wld', fds, ds) =>
          match ds with
          | [] =>
              Some (set_os wld' sh,
                    goto OuterTest (act (SleepFor 5000) (set_pool fds ds w)))
          | _ :: _ =>
              Some (set_os wld' sh,
                    goto InnerInit (set_listening true (set_pool fds ds w)))
          end
      end
  | InnerInit, Clock t =>
      Some (sh, goto InnerTest (set_times (now w) t w))
  | InnerTest, Tau =>
      if m_isRunning sh && isListening w
      then Some (sh, goto InnerNow w)
      else Some (sh, goto OuterTest w)
  | InnerNow, Clock t =>
      if stale (last w) t
      then Some (sh, goto OuterTest (set_times t (last w) w))
      else
        let w1 := set_rfds (allfds w) (set_times t t w) in
        Some (sh, goto InnerSelect
                    (act (CallSelect (to_int (List.last (devices w1) moved_from) + 1)
                                     (rfds w1)) w1))
  | InnerSelect, Select r ready =>
      let w1 := set_ret r w in
      if (r <? 0)%Z then Some (sh, goto OuterTest w1)
      else if (r =? 0)%Z then Some (sh, goto InnerTest (set_rfds [] w1))
      else
        Some (sh, drain 0 (set_rfds (filter (fun x => mem_fd x (rfds w)) ready) w1))
  | DrainRead k, Read n type =>
      if (n =? sizeof_event)%Z then
        if isInteraction type
        then Some (sh, goto (DrainStamp k) w)
        else Some (sh, drain (S k) w)
      else if (n <=? 0)%Z then
        let it := nth k (devices w) moved_from in
        let '(wld, it') := close (os sh) it in
        Some (set_os wld sh,
              endPass (set_listening false
                         (set_pool (FD_CLR (to_int it) (allfds w))
                                   (assign k it' (devices w)) w)))
      else Some (sh, drain (S k) w)
  | DrainStamp k, Clock t =>
      Some (store_time t sh, drain (S k) (act (Store t) w))
  | Leaving, Tau =>
      let '(wld, ds) := closeInputDevices (os sh) (devices w) in
      Some (complete (store_running false (set_os wld sh)),
            goto Finished (act (SetValue false) (set_pool (allfds w) ds w)))
  | _, _ => None
  end.

End Worker.

(* ------------------------------------------------------------------------- *)
(** ** [start], [stop], [listen], [shutdown] *)

Module Lifecycle.
Import Worker.

(** The listener object with the threads it has created.  [m_future] is
    the index of the thread whose promise the future belongs to;
    [stopping] holds while [stop] is blocked in [m_future.get()] with
    [m_mtx] locked. *)
Record System : Type := mkSystem {
  shared : Shared;
  threads : list Locals;
  m_future : option nat;
  stopping : bool
}.

Definition init (wld : Pool.World) : System :=
  {| shared := {| m_isRunning := false; m_lastOperateTime := 0%Z;
                  os := wld; completions := 0 |};
     threads := []; m_future := None; stopping := false |}.

(** [isRunning()] and [lastOperateTime()] *)
Definition isRunning (s : System) : bool := m_isRunning (shared s).
Definition lastOperateTime (s : System) : Z := m_lastOperateTime (shared s).

(** [listen()] *)
Definition listen (s : System) : bool * System :=
  if m_isRunning (shared s) then (true, s)
  else
    (true,
     {| shared := store_running true (shared s);
        threads := threads s ++ [spawn];
        m_future := Some (List.length (threads s));
        stopping := stopping s |}).

(** [start()], once it holds [m_mtx]. *)
Definition start (s : System) : bool * System := listen s.

(** [shutdown()] up to the call of [m_future.get()]. *)
Definition shutdown (s : System) : System :=
  if m_isRunning (shared s)
  then {| shared := store_running false (shared s); threads := threads s;
          m_future := m_future s; stopping := true |}
  else s.

(** [stop()], once it holds [m_mtx], up to the point where it blocks. *)
Definition stop (s : System) : System := shutdown s.

(** The promise behind [m_future] has its value: the thread has ended. *)
Definition futureReady (s : System) : bool :=
  match m_future s with
  | Some i =>
      match nth_error (threads s) i with
      | Some w => match pc w with Finished => true | _ => false end
      | None => false
      end
  | None => false
  end.

Definition finished (w : Locals) : bool :=
  match pc w with Finished => true | _ => false end.

(** The threads that have not returned from [run]. *)
Definition live (s : System) : nat :=
  List.length (filter (fun w => negb (finished w)) (threads s)).

Fixpoint replaceNth {A : Type} (i : nat) (x : A) (l : list A) : list A :=
  match i, l with
  | _, [] => []
  | O, _ :: rest => x :: rest
  | S i', y :: rest => y :: replaceNth i' x rest
  end.

(** What can happen to the system. *)
Inductive Event : Type :=
| CallStart               (* a caller runs [start()] *)
| CallStop                (* a caller enters [stop()] *)
| StopReturns             (* [m_future.get()] returns and [stop()] with it *)
| Run (i : nat) (o : Obs). (* thread [i] takes a step *)

(** [start] and [stop] wait for [m_mtx] while a [stop] is blocked. *)
Definition sys_step (e : Event) (s : System) : option System :=
  match e with
  | CallStart => if stopping s then None else Some (snd (start s))
  | CallStop => if stopping s then None else Some (stop s)
  | StopReturns =>
      if stopping s && futureReady s
      then Some {| shared := shared s; threads := threads s;
                   m_future := m_future s; stopping := false |}
      else None
  | Run i o =>
      match nth_error (threads s) i with
      | Some w =>
          match step o (shared s) w with
          | Some (sh', w') =>
              Some {| shared := sh'; threads := replaceNth i w' (threads s);
                      m_future := m_future s; stopping := stopping s |}
          | None => None
          end
      | None => None
      end
  end.

Fixpoint run_events (evs : list Event) (s : System) : option System :=
  match evs with
  | [] => Some s
  | e :: evs' =>
      match sys_step e s with
      | Some s' => run_events evs' s'
      | None => None
      end
  end.

Definition reachable (s : System) : Prop :=
  exists wld evs, run_events evs (init wld) = Some s.

Definition isRun (e : Event) : bool :=
  match e with Run _ _ => true | _ => false end.

(** The readings of the clock in a sequence of events, in order. *)
Fixpoint clocks (evs : list Event) : list Z :=
  match evs with
  | [] => []
  | Run _ (Clock t) :: evs' => t :: clocks evs'
  | _ :: evs' => clocks evs'
  end.

(** The values [lastOperateTime()] can return along a sequence of events:
    the value before each event and the value at the end. *)
Fixpoint history (evs : list Event) (s : System) : list Z :=
  match evs with
  | [] => [lastOperateTime s]
  | e :: evs' =>
      lastOperateTime s ::
      match sys_step e s with
      | Some s' => history evs' s'
      | None => []
      end
  end.

End Lifecycle.

(* ------------------------------------------------------------------------- *)
(** ** Notions the properties are stated with *)

Module Stated.
Import StdString Discovery.



(** Every character is a hexadecimal digit. *)
Definition allHex (l : list ascii) : Prop :=
  Forall (fun c => stoi16 c <> None) l.


(** A line of a block that is not a capability-bitmask line, and one that
    is not a handlers line. *)
Definition notEventLine (prop : string) : bool :=
  negb (starts_with eventPrefix prop).

Definition notHandlerLine (prop : string) : bool :=
  negb (starts_with handlerPrefix prop).

(** The name as the specification describes it: one quote character removed
    at the front if there is one, and one at the back if there is one. *)
Definition dropLeadingQuote (name : string) : string :=
  match name with
  | String c rest => if Ascii.eqb c dquote then rest else name
  | EmptyString => name
  end.

Fixpoint dropTrailingQuote (name : string) : string :=
  match name with
  | EmptyString => EmptyString
  | String c EmptyString =>
      if Ascii.eqb c dquote then EmptyString else name
  | String c rest => String c (dropTrailingQuote rest)
  end.

Definition stripOneQuoteEachEnd (name : string) : string :=
  dropTrailingQuote (dropLeadingQuote name).

(** A name that neither starts nor ends with a quote character. *)
Definition startsWithQuote (body : string) : bool :=
  match body with
  | String c _ => Ascii.eqb c dquote
  | EmptyString => false
  end.

Fixpoint endsWithQuote (body : string) : bool :=
  match body with
  | EmptyString => false
  | String c EmptyString => Ascii.eqb c dquote
  | String _ rest => endsWithQuote rest
  end.

Definition quoteFreeEnds (body : string) : bool :=
  negb (startsWithQuote body) && negb (endsWithQuote body).

(** The display name discovery stores for a name line with the raw text
    [raw] after the prefix. *)
Definition nameOfLine (raw : string) : option string :=
  option_map name (parseProp initBlock (namePrefix ++ raw)).

End Stated.

(* ------------------------------------------------------------------------- *)
(** ** A machine with one keyboard *)

Module Scenario.
Import StdString Device Pool Worker.

Definition nl : string := String newline EmptyString.

(** The registry with a single block, a keyboard at [event0]. *)
Definition keyboardId : string :=
  "Bus=0011 Vendor=0001 Product=0001 Version=ab41".

Definition keyboardPath : string := "/dev/input/event0".

Definition registryText : string :=
  "I: " ++ keyboardId ++ nl ++
  "N: Name=kbd" ++ nl ++
  "H: Handlers=sysrq kbd event0 leds " ++ nl ++
  "B: EV=120013" ++ nl ++ nl.

(** The keyboard as discovery describes it, and holding descriptor [fd]. *)
Definition keyboard (fd : Z) : InputDevice :=
  {| m_fd := fd; m_id := keyboardId; m_name := "kbd";
     m_handler := keyboardPath |}.

(** The device file exists and opens; the process holds the descriptors in
    [table]. *)
Definition machine (table : list Z) : World :=
  {| registry := Some registryText; present := [keyboardPath];
     readable := [keyboardPath]; fdtable := table; calls := [] |}.

(** The thread in the inner loop, about to read the clock at line 361,
    with the keyboard in its pool. *)
Definition listening (last : Z) : Locals :=
  {| pc := InnerNow; devices := [keyboard 3]; allfds := [3%Z]; rfds := [];
     now := last; last := last; isListening := true; ret := 0%Z;
     actions := [] |}.

Definition sharedRunning : Shared :=
  {| m_isRunning := true; m_lastOperateTime := 0%Z;
     os := machine [3; 0; 1; 2]%Z; completions := 0 |}.

(** A run in which a key press is read: [start], the thread up to its
    first [select], one full read of a key event and the store of the
    time. *)
Definition keyPress : list Lifecycle.Event :=
  [Lifecycle.CallStart;
   Lifecycle.Run 0 (Clock 10);
   Lifecycle.Run 0 Tau;
   Lifecycle.Run 0 (Files (Some registryText) [keyboardPath] [keyboardPath]);
   Lifecycle.Run 0 (Clock 11);
   Lifecycle.Run 0 Tau;
   Lifecycle.Run 0 (Clock 12);
   Lifecycle.Run 0 (Select 1 [3%Z]);
   Lifecycle.Run 0 (Read 24 Discovery.EV_KEY);
   Lifecycle.Run 0 (Clock 13)].

(** The keyboard's block alone, and a block that is a capability bitmask
    with the key bit and nothing else. *)
Definition keyboardBlock : string :=
  "I: " ++ keyboardId ++ nl ++
  "N: Name=kbd" ++ nl ++
  "H: Handlers=sysrq kbd event0 leds " ++ nl ++
  "B: EV=120013".

Definition pathlessBlock : string := "B: EV=2".




Definition twoBlockRegistry : string :=
  keyboardBlock ++ nl ++ nl ++ pathlessBlock ++ nl ++ nl.

(** The thread in the loop of line 383, about to [read] from the
    keyboard. *)
Definition reading : Locals :=
  {| pc := DrainRead 0; devices := [keyboard 3]; allfds := [3%Z];
     rfds := [3%Z]; now := 100%Z; last := 100%Z; isListening := true;
     ret := 1%Z; actions := [] |}.

(** The system after [start] and after the steps of the key press. *)
Definition started : Lifecycle.System :=
  snd (Lifecycle.start (Lifecycle.init (machine [0; 1; 2]%Z))).

Definition afterKeyPress : Lifecycle.System :=
  match Lifecycle.run_events (tl keyPress) started with
  | Some s => s
  | None => started
  end.

(** The steps of the thread from there to its end, once [stop] has
    cleared [m_isRunning]: the two loop tests and the exit. *)
Definition windDown : list Lifecycle.Event :=
  [Lifecycle.Run 0 Tau; Lifecycle.Run 0 Tau; Lifecycle.Run 0 Tau].

End Scenario.

(* ------------------------------------------------------------------------- *)
(** ** The shapes a system can have *)

Module Shape.
Import Worker Lifecycle.

Definition allFinished (ws : list Locals) : Prop :=
  Forall (fun w => pc w = Finished) ws.

(** [n] threads have ended and one more is running. *)
Definition running (n : nat) (s : System) : Prop :=
  m_isRunning (shared s) = true /\ stopping s = false
  /\ m_future s = Some n /\ completions (shared s) = n
  /\ exists ws w, threads s = ws ++ [w] /\ List.length ws = n
                  /\ allFinished ws
                  /\ pc w <> Leaving /\ pc w <> Finished.

(** [n] threads have ended and [stop] waits for one more. *)
Definition halting (n : nat) (s : System) : Prop :=
  m_isRunning (shared s) = false /\ stopping s = true
  /\ m_future s = Some n
  /\ exists ws w, threads s = ws ++ [w] /\ List.length ws = n
                  /\ allFinished ws
                  /\ completions (shared s)
                     = n + (if finished w then 1 else 0).

(** [n] threads have ended and none is left. *)
Definition idle (n : nat) (s : System) : Prop :=
  m_isRunning (shared s) = false /\ stopping s = false
  /\ completions (shared s) = n
  /\ List.length (threads s) = n /\ allFinished (threads s).

Definition invariant (s : System) : Prop :=
  exists n, running n s \/ halting n s \/ idle n s.

End Shape.

(* ------------------------------------------------------------------------- *)
(** ** The descriptors a pool holds *)

Module Held.
Import Device Pool.

(** The handles of the descriptors of a pool that are open. *)
Definition openHandles (pool : list InputDevice) : list Z :=
  filter (fun fd => negb (fd =? -1)%Z) (handles pool).

(** The descriptor table without the descriptors in [hs]. *)
Definition without (hs : list Z) (table : list Z) : list Z :=
  filter (fun fd => negb (mem_fd fd hs)) table.

(** The pool accounts for its descriptors: its open handles are distinct,
    the process holds them, and apart from them the process holds [base]. *)
Definition accounted (base table : list Z) (pool : list InputDevice) : Prop :=
  NoDup (openHandles pool)
  /\ incl (openHandles pool) table
  /\ without (openHandles pool) table = base.

(** What holds between the iterations of the loop of [openInputDevices]
    that started with the pool [pool] and the descriptor table [table]: the
    handles of the previous pool are untouched, and the handles in
    [openedDevices] are those opened since, newest first in the table. *)
Definition rebuilding (table : list Z) (pool : list InputDevice) (st : Recon)
    : Prop :=
  map m_fd (devices st) = map m_fd pool
  /\ NoDup (openHandles (openedDevices st))
  /\ (forall h, In h (openHandles (openedDevices st)) ->
                (0 <= h)%Z /\ ~ In h table)
  /\ fdtable (world st) = rev (openHandles (openedDevices st)) ++ table.

(** The multiplex set and the descriptors in [openedDevices] are the same
    set. *)
Definition mirrored (st : Recon) : Prop :=
  forall fd, In fd (allfds st) <-> In fd (handles (openedDevices st)).

(** The process holds the descriptors in [base] and, beside them, what the
    pool of the newest thread accounts for; a thread that has ended holds
    nothing. *)
Definition ledger (base : list Z) (s : Lifecycle.System) : Prop :=
  (Lifecycle.threads s = [] ->
   fdtable (Worker.os (Lifecycle.shared s)) = base)
  /\ (forall ws w, Lifecycle.threads s = ws ++ [w] ->
                   accounted base (fdtable (Worker.os (Lifecycle.shared s)))
                             (Worker.devices w))
  /\ (forall w, In w (Lifecycle.threads s) -> Worker.pc w = Worker.Finished ->
                openHandles (Worker.devices w) = []).

(** The descriptors the macros of an [fd_set] are defined for. *)
Definition FD_SETSIZE : Z := 1024.

Definition validFd (fd : Z) : Prop := (0 <= fd < FD_SETSIZE)%Z.

(** The pool is in the order of its handles. *)
Definition ordered (pool : list InputDevice) : Prop :=
  Sorted (fun a b => (m_fd a <= m_fd b)%Z) pool.

(** The access paths discovery builds. *)
Definition eventPath (path : string) : Prop :=
  exists token,
    path = (Discovery.devicePath ++ token)%string
    /\ StdString.starts_with "event" token = true.

End Held.

(* ========================================================================= *)
(** * Properties *)

Import StdString Device Discovery Stated.

(* ------------------------------------------------------------------------- *)
(** ** Strings *)

Section StringFacts.

Lemma starts_with_prefix (pat : string) (c : ascii) (s : string) :
  starts_with pat (String c s) = prefix pat (String c s).
Proof.
  unfold starts_with, find.
  cbn [index].
  destruct (prefix pat (String c s)); [reflexivity|].
  destruct (index 0 pat s); reflexivity.
Qed.

Lemma append_nil_r (s : string) : (s ++ "")%string = s.
Proof. induction s as [|a s IH]; cbn; [reflexivity | now rewrite IH]. Qed.

Lemma append_assoc (s t u : string) :
  ((s ++ t) ++ u = s ++ (t ++ u))%string.
Proof. induction s as [|a s IH]; cbn; [reflexivity | now rewrite IH]. Qed.

Lemma length_append (s t : string) :
  String.length (s ++ t)%string = String.length s + String.length t.
Proof. induction s as [|a s IH]; cbn; [reflexivity | now rewrite IH]. Qed.

Lemma substr_from_append (s t : string) :
  substr_from (String.length s) (s ++ t)%string = t.
Proof. induction s as [|a s IH]; cbn; [now destruct t | exact IH]. Qed.

Lemma erase_from_append (s t : string) :
  erase_from (String.length s) (s ++ t)%string = s.
Proof. induction s as [|a s IH]; cbn; [now destruct t | now rewrite IH]. Qed.

Lemma length_replicate (n : nat) (c : ascii) :
  String.length (replicate n c) = n.
Proof. induction n as [|n IH]; cbn; [reflexivity | now rewrite IH]. Qed.

Lemma find_first_not_of_replicate (c : ascii) (n : nat) (s : string) :
  find_first_not_of c (replicate n c ++ s)%string
  = option_map (Nat.add n) (find_first_not_of c s).
Proof.
  induction n as [|n IH]; cbn.
  - now destruct (find_first_not_of c s).
  - rewrite Ascii.eqb_refl, IH.
    now destruct (find_first_not_of c s).
Qed.

Lemma find_last_not_of_replicate (c : ascii) (n : nat) :
  find_last_not_of c (replicate n c) = None.
Proof.
  induction n as [|n IH]; cbn; [reflexivity|].
  now rewrite IH, Ascii.eqb_refl.
Qed.

Lemma find_last_not_of_body (body : string) (n : nat) :
  body <> "" -> endsWithQuote body = false ->
  find_last_not_of dquote (body ++ replicate n dquote)%string
  = Some (pred (String.length body)).
Proof.
  induction body as [|a body IH]; [congruence|].
  intros _ Hend.
  destruct body as [|b body].
  - cbn in Hend. cbn [append find_last_not_of String.length pred].
    now rewrite find_last_not_of_replicate, Hend.
  - change (endsWithQuote (String a (String b body)))
      with (endsWithQuote (String b body)) in Hend.
    change (String a (String b body) ++ replicate n dquote)%string
      with (String a (String b body ++ replicate n dquote)%string).
    cbn [find_last_not_of].
    rewrite IH by (congruence || assumption).
    reflexivity.
Qed.

Lemma replicate_append (a b : nat) (c : ascii) :
  (replicate a c ++ replicate b c)%string = replicate (a + b) c.
Proof. induction a as [|a IH]; cbn; [reflexivity | now rewrite IH]. Qed.

Lemma find_first_not_of_all (c : ascii) (n : nat) :
  find_first_not_of c (replicate n c) = None.
Proof.
  induction n as [|n IH]; cbn; [reflexivity|].
  now rewrite Ascii.eqb_refl, IH.
Qed.

(** The trimming removes the whole run of quotes at either end. *)
Lemma trimName_runs (a b : nat) (body : string) :
  quoteFreeEnds body = true ->
  trimName (replicate a dquote ++ body ++ replicate b dquote)%string = body.
Proof.
  unfold quoteFreeEnds. intros H.
  apply andb_prop in H as [Hs He].
  apply negb_true_iff in Hs, He.
  unfold trimName.
  destruct body as [|c body].
  - cbn [append]. rewrite replicate_append.
    destruct (a + b) as [|n]; [reflexivity|].
    cbn [replicate empty negb].
    change (String dquote (replicate n dquote)) with (replicate (S n) dquote).
    now rewrite find_first_not_of_all.
  - assert (Hne : empty (replicate a dquote ++ String c body ++ replicate b dquote)%string
                  = false).
    { destruct a; reflexivity. }
    rewrite Hne. cbn [negb].
    rewrite find_first_not_of_replicate.
    cbn in Hs.
    cbn [append find_first_not_of]. rewrite Hs.
    cbn [option_map erase_front].
    rewrite Nat.add_0_r.
    assert (E : forall t, substr_from a (replicate a dquote ++ t)%string = t).
    { intros t. rewrite <- (length_replicate a dquote) at 1.
      apply substr_from_append. }
    rewrite !E.
    change (String c (body ++ replicate b dquote)%string)
      with (String c body ++ replicate b dquote)%string.
    rewrite find_last_not_of_body by (congruence || assumption).
    cbn [succ_npos String.length pred].
    change (S (String.length body)) with (String.length (String c body)).
    apply erase_from_append.
Qed.

End StringFacts.

(* ------------------------------------------------------------------------- *)
(** ** The lines of a block *)

Section LineFacts.

Lemma prefix_append (p t : string) : prefix p (p ++ t)%string = true.
Proof.
  induction p as [|a p IH]; cbn.
  - now destruct t.
  - destruct (ascii_dec a a); [exact IH | congruence].
Qed.

Lemma parseProp_nameLine (st : BlockState) (raw : string) :
  parseProp st (namePrefix ++ raw)
  = Some {| id := id st; name := trimName raw; handler := handler st;
            isInputDevice := isInputDevice st |}.
Proof.
  unfold parseProp.
  change (namePrefix ++ raw)%string
    with (String "N" (String ":" (String " " (String "N" (String "a"
           (String "m" (String "e" (String "=" raw)))))))).
  rewrite !starts_with_prefix.
  change (prefix idPrefix _) with false. cbn iota.
  replace (prefix namePrefix _) with true
    by (symmetry; apply (prefix_append namePrefix raw)).
  reflexivity.
Qed.

Lemma parseProp_eventLine (st : BlockState) (ev : string) :
  parseProp st (eventPrefix ++ ev)
  = match scanEV (rev (list_ascii_of_string ev)) 0%Z 0%Z (isInputDevice st) with
    | Some flag =>
        Some {| id := id st; name := name st; handler := handler st;
                isInputDevice := flag |}
    | None => None
    end.
Proof.
  unfold parseProp.
  change (eventPrefix ++ ev)%string
    with (String "B" (String ":" (String " " (String "E" (String "V"
           (String "=" ev)))))).
  rewrite !starts_with_prefix.
  change (prefix idPrefix _) with false.
  change (prefix namePrefix _) with false.
  change (prefix handlerPrefix _) with false. cbn iota.
  replace (prefix eventPrefix _) with true
    by (symmetry; apply (prefix_append eventPrefix ev)).
  reflexivity.
Qed.

(** A line that is not a capability-bitmask line never throws and leaves
    the flag as it is. *)
Lemma parseProp_otherLine (st : BlockState) (prop : string) :
  notEventLine prop = true ->
  exists st', parseProp st prop = Some st'
              /\ isInputDevice st' = isInputDevice st.
Proof.
  unfold notEventLine, parseProp. intros H.
  apply negb_true_iff in H. rewrite H.
  destruct (starts_with idPrefix prop); [eexists; split; reflexivity|].
  destruct (starts_with namePrefix prop); [eexists; split; reflexivity|].
  destruct (starts_with handlerPrefix prop); [|eexists; split; reflexivity].
  destruct (eventToken _); eexists; split; reflexivity.
Qed.



(** A line that is not a handlers line leaves the access path as it is. *)
Lemma parseProp_keeps_handler (st st' : BlockState) (prop : string) :
  notHandlerLine prop = true ->
  parseProp st prop = Some st' -> handler st' = handler st.
Proof.
  unfold notHandlerLine, parseProp. intros H.
  apply negb_true_iff in H. rewrite H.
  destruct (starts_with idPrefix prop); [intros [= <-]; reflexivity|].
  destruct (starts_with namePrefix prop); [intros [= <-]; reflexivity|].
  destruct (starts_with eventPrefix prop); [|intros [= <-]; reflexivity].
  destruct (scanEV _ _ _ _); [intros [= <-]; reflexivity | discriminate].
Qed.

Lemma parseProps_keeps_handler (props : list string) (st st' : BlockState) :
  forallb notHandlerLine props = true ->
  parseProps st props = Some st' -> handler st' = handler st.
Proof.
  revert st. induction props as [|p props IH]; intros st H E; cbn in *.
  - now injection E as <-.
  - apply andb_prop in H as [Hp Hps].
    destruct (parseProp st p) as [st1|] eqn:E1; [|discriminate].
    rewrite (IH st1 Hps E).
    exact (parseProp_keeps_handler st st1 p Hp E1).
Qed.

End LineFacts.

(* ------------------------------------------------------------------------- *)
(** ** The descriptor *)

(** C10: for a descriptor constructed from a stable id, a display name and an
    access path, the accessor [id()] returns the display name and the
    accessor [name()] returns the stable id. *)
Theorem accessors_return_each_others_field (i n h : string) :
  Device.id (Device.make i n h) = n /\ Device.name (Device.make i n h) = i.
Proof. split; reflexivity. Qed.

(* ------------------------------------------------------------------------- *)
(** ** The name line *)

(** C6, as stated, fails: of two quote characters at either end of the name
    the code removes both, the stated rule only one. *)
Lemma name_single_quote_refuted :
  nameOfLine (replicate 2 dquote ++ "a" ++ replicate 2 dquote)
  <> Some (stripOneQuoteEachEnd (replicate 2 dquote ++ "a" ++ replicate 2 dquote)).
Proof. vm_compute. discriminate. Qed.

(** C6, amended: the name line's display name loses every quote character of
    the run at its front and of the run at its back; what lies between the
    two runs, further quote characters included, is unchanged. *)
Theorem name_quote_runs_stripped (a b : nat) (body : string) :
  quoteFreeEnds body = true ->
  nameOfLine (replicate a dquote ++ body ++ replicate b dquote) = Some body.
Proof.
  intros H. unfold nameOfLine.
  rewrite parseProp_nameLine. cbn [option_map name].
  now rewrite trimName_runs.
Qed.

Lemma name_quote_runs_stripped_witness :
  quoteFreeEnds ("a" ++ String dquote "b") = true
  /\ nameOfLine (replicate 2 dquote ++ ("a" ++ String dquote "b") ++ replicate 3 dquote)
     = Some ("a" ++ String dquote "b")%string.
Proof.
  split; [reflexivity|].
  apply (name_quote_runs_stripped 2 3 ("a" ++ String dquote "b")).
  reflexivity.
Defined.

(* ------------------------------------------------------------------------- *)
(** ** The capability bitmask *)

Section BitmaskFacts.
Local Open Scope Z_scope.


(** Once the flag is set, it stays set. *)
Lemma scanNibble_flagged (n : Z) (masks : list Z) (i j : Z) :
  exists i' j', scanNibble n masks i j true = (i', j', true).
Proof.
  revert i j. induction masks as [|m masks IH]; intros i j; cbn.
  - now exists i, j.
  - destruct (negb (Z.land n m =? 0) && isEventClass (i + j)).
    + now exists i, j.
    + destruct (i + 1 >? 9); apply IH.
Qed.

Lemma scanEV_flagged (l : list ascii) (i j : Z) :
  allHex l -> scanEV l i j true = Some true.
Proof.
  intros H. revert i j.
  induction H as [|c l Hc Hl IH]; intros i j; cbn [scanEV]; [reflexivity|].
  destruct (stoi16 c) as [n|]; [|congruence].
  destruct (scanNibble_flagged n bits i j) as (i' & j' & E).
  rewrite E. apply IH.
Qed.










End BitmaskFacts.

(* ------------------------------------------------------------------------- *)
(** ** The blocks of the registry *)

Section BlockFacts.

Lemma index_ge (pat s : string) (n m : nat) :
  index n pat s = Some m -> n <= m.
Proof.
  revert n m. induction s as [|b s IH]; intros n m; cbn [index].
  - destruct n; [|discriminate].
    destruct pat; [intros [= <-]; lia | discriminate].
  - destruct n.
    + intros _. lia.
    + destruct (index n pat s) as [k|] eqn:E; [|discriminate].
      intros [= <-]. apply IH in E. lia.
Qed.

Lemma substring_length_le (s : string) (n m : nat) :
  String.length (substring n m s) <= String.length s - n.
Proof.
  revert n m. induction s as [|c s IH]; intros n m.
  - destruct n, m; cbn; lia.
  - destruct n; [destruct m|]; cbn [substring String.length].
    + lia.
    + specialize (IH 0 m). lia.
    + specialize (IH n m). lia.
Qed.

Lemma find_sep_bounds (content : string) (begin_ end_ : nat) :
  find sep begin_ content = Some end_ ->
  begin_ <= end_ /\ end_ + 2 <= String.length content.
Proof.
  unfold find. intros H. split; [exact (index_ge _ _ _ _ H)|].
  pose proof (index_correct1 _ _ _ _ H) as E.
  pose proof (substring_length_le content end_ (String.length sep)) as L.
  rewrite E in L. cbn in L. lia.
Qed.

(** The loop over the blank lines ends: with [begin_] at a distance of less
    than [fuel] from the end of the file, more iterations change nothing. *)
Lemma splitLoop_enough (content : string) (fuel extra begin_ : nat)
    (deviceInfo : list string) :
  String.length content < begin_ + fuel ->
  splitLoop (fuel + extra) content begin_ deviceInfo
  = splitLoop fuel content begin_ deviceInfo.
Proof.
  revert begin_ deviceInfo.
  induction fuel as [|fuel IH]; intros begin_ deviceInfo H.
  - destruct extra as [|extra]; [reflexivity|].
    cbn [Nat.add splitLoop].
    destruct (find sep begin_ content) as [end_|] eqn:E; [|reflexivity].
    apply find_sep_bounds in E. lia.
  - cbn [Nat.add splitLoop].
    destruct (find sep begin_ content) as [end_|] eqn:E; [|reflexivity].
    destruct (negb (empty (substr begin_ (end_ - begin_) content)));
      apply IH; cbn; lia.
Qed.

Lemma splitLoop_fuel (content : string) (fuel : nat) :
  S (String.length content) <= fuel ->
  splitLoop fuel content 0 [] = splitBlocks content.
Proof.
  intros H. unfold splitBlocks.
  replace fuel with (S (String.length content) + (fuel - S (String.length content)))
    by lia.
  apply splitLoop_enough. lia.
Qed.

(** Discovery adds what the blocks add, block after block. *)
Lemma parseBlocks_blockwise (infos : list string) (devices out : list InputDevice) :
  parseBlocks infos devices = Some out ->
  exists dss,
    Forall2 (fun info ds => parseBlock info = Some ds) infos dss
    /\ out = devices ++ List.concat dss.
Proof.
  revert devices. induction infos as [|info infos IH]; intros devices; cbn.
  - intros [= <-]. exists []. split; [constructor | now rewrite app_nil_r].
  - destruct (parseBlock info) as [ds|] eqn:E; [|discriminate].
    intros H. destruct (IH _ H) as (dss & F & ->).
    exists (ds :: dss). split; [now constructor|].
    cbn. now rewrite app_assoc.
Qed.

(** The descriptors of the blocks come after those already in the vector. *)
Lemma parseBlocks_from (infos : list string) (devices : list InputDevice) :
  parseBlocks infos devices = option_map (app devices) (parseBlocks infos []).
Proof.
  revert devices. induction infos as [|info infos IH]; intros devices; cbn.
  - now rewrite app_nil_r.
  - destruct (parseBlock info) as [ds|]; [|reflexivity].
    rewrite (IH (devices ++ ds)), (IH ds).
    destruct (parseBlocks infos []) as [out|]; cbn; [|reflexivity].
    now rewrite app_assoc.
Qed.

Lemma parseBlocks_app (xs ys : list string) (devices : list InputDevice) :
  parseBlocks (xs ++ ys) devices
  = match parseBlocks xs devices with
    | Some out => parseBlocks ys out
    | None => None
    end.
Proof.
  revert devices. induction xs as [|x xs IH]; intros devices; cbn.
  - reflexivity.
  - destruct (parseBlock x); [apply IH | reflexivity].
Qed.

Lemma parseBlock_of_state (info : string) (st : BlockState) :
  parseProps initBlock (propsOf info) = Some st ->
  parseBlock info = Some (emit st).
Proof.
  unfold parseBlock. intros H.
  destruct (propsOf info) as [|p props].
  - cbn in H. now injection H as <-.
  - now rewrite H.
Qed.

Lemma emit_one (st : BlockState) :
  isInputDevice st = true -> handler st <> "" ->
  emit st = [Device.make (id st) (name st) (handler st)].
Proof.
  unfold emit. intros -> H. destruct (handler st); [congruence | reflexivity].
Qed.

Lemma emit_none (st : BlockState) :
  isInputDevice st = false \/ handler st = "" -> emit st = [].
Proof.
  unfold emit. intros [-> | ->]; [reflexivity|]. cbn. now rewrite andb_false_r.
Qed.

(** What discovery returns for a registry, in terms of one of its blocks:
    the descriptors of the blocks before it, then those of the block, then
    those of the blocks after it. *)
Lemma discovery_of_block
    (content : string) (devices : list InputDevice)
    (before after : list string) (info : string)
    (outB outA : list InputDevice) (st : BlockState) :
  splitBlocks content = before ++ info :: after ->
  parseBlocks before devices = Some outB ->
  parseBlocks after [] = Some outA ->
  parseProps initBlock (propsOf info) = Some st ->
  availableInputDevices (Some content) devices
  = Some (outB ++ emit st ++ outA).
Proof.
  intros Hs HB HA Hst. cbn [availableInputDevices].
  rewrite Hs, parseBlocks_app, HB. cbn [parseBlocks].
  rewrite (parseBlock_of_state info st Hst).
  rewrite parseBlocks_from, HA. cbn. now rewrite app_assoc.
Qed.

End BlockFacts.




(** C5: for every block of the registry, discovery returns exactly one
    descriptor for it, in its place between those of the blocks before and
    after, when the block is flagged as a human-input device and its access
    path is not empty, and none otherwise; in particular none for a block
    without a handlers line, whatever its capability bitmask. *)
Theorem discovery_emits_iff_flagged_with_path
    (content : string) (devices : list InputDevice)
    (before after : list string) (info : string)
    (outB outA : list InputDevice) (st : BlockState) :
  splitBlocks content = before ++ info :: after ->
  parseBlocks before devices = Some outB ->
  parseBlocks after [] = Some outA ->
  parseProps initBlock (propsOf info) = Some st ->
  (isInputDevice st = true /\ handler st <> "" ->
   availableInputDevices (Some content) devices
   = Some (outB ++ Device.make (id st) (name st) (handler st) :: outA))
  /\ (isInputDevice st = false \/ handler st = "" ->
      availableInputDevices (Some content) devices = Some (outB ++ outA))
  /\ (forallb notHandlerLine (propsOf info) = true ->
      availableInputDevices (Some content) devices = Some (outB ++ outA)).
Proof.
  intros Hs HB HA Hst.
  rewrite (discovery_of_block content devices before after info outB outA st
             Hs HB HA Hst).
  repeat split.
  - intros [Hf Hh]. now rewrite emit_one.
  - intros H. now rewrite emit_none.
  - intros Hno. rewrite emit_none; [reflexivity|]. right.
    exact (parseProps_keeps_handler _ _ _ Hno Hst).
Qed.

Lemma discovery_emits_iff_flagged_with_path_witness :
  availableInputDevices (Some Scenario.twoBlockRegistry) []
  = Some [Scenario.keyboard (-1)]
  /\ availableInputDevices (Some Scenario.twoBlockRegistry)
       [Device.make "i" "n" "/dev/input/event9"]
     = Some [Device.make "i" "n" "/dev/input/event9"; Scenario.keyboard (-1)].
Proof.
  assert (Hs1 : splitBlocks Scenario.twoBlockRegistry
                = [] ++ Scenario.keyboardBlock :: [Scenario.pathlessBlock])
    by reflexivity.
  assert (Hs2 : splitBlocks Scenario.twoBlockRegistry
                = [Scenario.keyboardBlock] ++ Scenario.pathlessBlock :: [])
    by reflexivity.
  split.
  - destruct (discovery_emits_iff_flagged_with_path
                Scenario.twoBlockRegistry [] [] [Scenario.pathlessBlock]
                Scenario.keyboardBlock [] []
                (mkBlock Scenario.keyboardId "kbd" Scenario.keyboardPath true)
                Hs1 eq_refl eq_refl eq_refl)
      as (Hemit & _ & _).
    apply Hemit. split; [reflexivity | discriminate].
  - destruct (discovery_emits_iff_flagged_with_path
                Scenario.twoBlockRegistry
                [Device.make "i" "n" "/dev/input/event9"]
                [Scenario.keyboardBlock] [] Scenario.pathlessBlock
                [Device.make "i" "n" "/dev/input/event9"; Scenario.keyboard (-1)]
                [] (mkBlock "" "" "" true)
                Hs2 eq_refl eq_refl eq_refl)
      as (_ & _ & Hnone).
    rewrite Hnone; [now rewrite app_nil_r | reflexivity].
Defined.

(** C7: when the registry cannot be opened, discovery leaves the vector it
    was given unchanged, so the list it returns to reconciliation is empty;
    it does not fail, and the pool built from it is empty. *)
Theorem registry_unopened_adds_nothing
    (w : Pool.World) (devices pool : list InputDevice) :
  Pool.registry w = None ->
  availableInputDevices (Pool.registry w) devices = Some devices
  /\ availableInputDevices (Pool.registry w) [] = Some []
  /\ Pool.openInputDevices w pool = Some (Pool.destroy w pool, [], []).
Proof.
  intros H. unfold Pool.openInputDevices. rewrite H. cbn. auto.
Qed.

Lemma registry_unopened_adds_nothing_witness :
  availableInputDevices None [Device.make "i" "n" "/dev/input/event0"]
  = Some [Device.make "i" "n" "/dev/input/event0"]
  /\ availableInputDevices None [] = Some []
  /\ Pool.openInputDevices (Pool.mkWorld None [] [] [0; 1; 2]%Z []) []
     = Some (Pool.mkWorld None [] [] [0; 1; 2]%Z [], [], []).
Proof.
  apply (registry_unopened_adds_nothing
           (Pool.mkWorld None [] [] [0; 1; 2]%Z [])
           [Device.make "i" "n" "/dev/input/event0"] []).
  reflexivity.
Defined.

(* ------------------------------------------------------------------------- *)
(** ** Reconciliation *)

Section PoolFacts.
Import Pool.

(** A descriptor that holds a handle is never reported as opened. *)
Lemma isOpened_of_held (w : World) (d : InputDevice) :
  m_fd d <> (-1)%Z -> isOpened w d = false.
Proof.
  intros H. unfold isOpened.
  destruct (sys_access w (m_handler d)); [|reflexivity].
  now apply Z.eqb_neq.
Qed.

Lemma find_if_nth (pred : InputDevice -> bool) (l : list InputDevice) (k : nat) :
  find_if pred l = Some k -> In (nth k l moved_from) l.
Proof.
  revert k. induction l as [|x l IH]; intros k; cbn; [discriminate|].
  destruct (pred x).
  - intros [= <-]. now left.
  - destruct (find_if pred l) as [k'|]; [|discriminate].
    intros [= <-]. right. now apply IH.
Qed.

(** With every descriptor of the previous pool holding a handle, no
    iteration of the loop takes a descriptor over from the previous pool:
    the previous pool stays as it is until it is destroyed. *)
Lemma reconcileOne_takes_nothing (st : Recon) (it : InputDevice) :
  Forall (fun d => m_fd d <> (-1)%Z) (devices st) ->
  devices (reconcileOne st it) = devices st.
Proof.
  intros H. unfold reconcileOne.
  destruct (find_if (fun dev => equal it dev) (devices st)) as [k|] eqn:E.
  - rewrite isOpened_of_held.
    + destruct (open (world st) it) as [[ok w'] it']. now destruct ok.
    + rewrite Forall_forall in H. apply H. eapply find_if_nth; eauto.
  - destruct (open (world st) it) as [[ok w'] it']. now destruct ok.
Qed.

Lemma reconcile_takes_nothing (fresh : list InputDevice) (st : Recon) :
  Forall (fun d => m_fd d <> (-1)%Z) (devices st) ->
  devices (fold_left reconcileOne fresh st) = devices st.
Proof.
  revert st. induction fresh as [|it fresh IH]; intros st H; cbn; [reflexivity|].
  rewrite IH; rewrite reconcileOne_takes_nothing; auto.
Qed.

End PoolFacts.

(** C2, on the code: the previous pool holds the keyboard on descriptor 3,
    its device file exists, and discovery finds the same keyboard again.
    The previous descriptor is not kept: the keyboard is opened a second
    time on descriptor 4 and descriptor 3 is closed.  And a previous
    descriptor without a handle whose file exists is taken into the new
    pool, which then holds a descriptor that is not open. *)
Theorem held_descriptor_is_replaced :
  Device.equal (Scenario.keyboard (-1)) (Scenario.keyboard 3) = true
  /\ Pool.sys_access (Scenario.machine [3; 0; 1; 2]%Z) Scenario.keyboardPath = true
  /\ Pool.openInputDevices (Scenario.machine [3; 0; 1; 2]%Z) [Scenario.keyboard 3]
     = Some ({| Pool.registry := Some Scenario.registryText;
                Pool.present := [Scenario.keyboardPath];
                Pool.readable := [Scenario.keyboardPath];
                Pool.fdtable := [4; 0; 1; 2]%Z;
                Pool.calls := [Pool.SysOpen Scenario.keyboardPath 4;
                               Pool.SysClose 3] |},
             [4%Z], [Scenario.keyboard 4])
  /\ Pool.openInputDevices (Scenario.machine [0; 1; 2]%Z) [Scenario.keyboard (-1)]
     = Some (Scenario.machine [0; 1; 2]%Z, [(-1)%Z], [Scenario.keyboard (-1)])
  /\ Pool.allOpen [Scenario.keyboard (-1)] = false.
Proof. vm_compute. repeat split. Qed.

(** C3, on the code: two rebuilds in a row over the same registry.  The
    first opens the keyboard on descriptor 3; the second opens it again on
    descriptor 4 and closes descriptor 3. *)
Theorem unchanged_discovery_reopens :
  exists w1 w2,
    Pool.openInputDevices (Scenario.machine [0; 1; 2]%Z) []
    = Some (w1, [3%Z], [Scenario.keyboard 3])
    /\ Pool.registry w1 = Pool.registry (Scenario.machine [0; 1; 2]%Z)
    /\ Pool.openInputDevices w1 [Scenario.keyboard 3]
       = Some (w2, [4%Z], [Scenario.keyboard 4])
    /\ Pool.calls w2
       = Pool.calls w1 ++ [Pool.SysOpen Scenario.keyboardPath 4; Pool.SysClose 3].
Proof.
  do 2 eexists. vm_compute. repeat split.
Qed.

(* ------------------------------------------------------------------------- *)
(** ** The staleness test *)

Section StalenessFacts.
Import Worker.
Local Open Scope Z_scope.

Lemma stale_iff (last now : Z) : stale last now = true <-> now < last - 5.
Proof. unfold stale. rewrite Z.gtb_ltb, Z.ltb_lt. lia. Qed.

(** With a clock that does not go back the test never succeeds, however
    much time has passed. *)
Lemma stale_false_of_later (last now : Z) :
  last <= now -> stale last now = false.
Proof.
  intros H. destruct (stale last now) eqn:E; [|reflexivity].
  apply stale_iff in E. lia.
Qed.

(** The pass of the inner loop goes on to [select] whenever the clock has
    not gone back. *)
Lemma late_pass_waits (sh : Shared) (w : Locals) (t : Z) :
  pc w = InnerNow -> last w <= t ->
  exists w', step (Clock t) sh w = Some (sh, w') /\ pc w' = InnerSelect.
Proof.
  intros Hpc Hle. unfold step. rewrite Hpc.
  rewrite (stale_false_of_later _ _ Hle).
  eexists. split; reflexivity.
Qed.

End StalenessFacts.

(** C1, on the code: the previous pass of the inner loop was at second 100
    and this one reads second 110 from the clock, ten seconds later.  The
    test of line 362 does not leave the loop: the thread goes on to wait in
    [select]. *)
Theorem stale_pass_goes_on_to_select :
  (110 - 100 > 5)%Z
  /\ Worker.stale 100 110 = false
  /\ option_map (fun r => Worker.pc (snd r))
       (Worker.step (Worker.Clock 110) Scenario.sharedRunning (Scenario.listening 100))
     = Some Worker.InnerSelect
  /\ option_map (fun r => Worker.actions (snd r))
       (Worker.step (Worker.Clock 110) Scenario.sharedRunning (Scenario.listening 100))
     = Some [Worker.CallSelect 4 [3%Z]].
Proof. vm_compute. repeat split. Qed.

(* ------------------------------------------------------------------------- *)
(** ** The steps of the thread *)

Section StepFacts.
Import Worker.

Lemma pc_drainFrom (rest : list InputDevice) (k : nat) (w : Locals) :
  pc (drainFrom k rest w) = InnerTest
  \/ exists k', pc (drainFrom k rest w) = DrainRead k'.
Proof.
  revert k. induction rest as [|it rest IH]; intros k; cbn.
  - now left.
  - destruct (Pool.FD_ISSET (to_int it) (rfds w)); [|apply IH].
    right. now exists k.
Qed.

Lemma pc_drain (k : nat) (w : Locals) :
  pc (drain k w) = InnerTest \/ exists k', pc (drain k w) = DrainRead k'.
Proof. apply pc_drainFrom. Qed.

Lemma pc_drain_not (k : nat) (w : Locals) :
  pc (drain k w) <> Finished /\ pc (drain k w) <> Leaving.
Proof.
  destruct (pc_drain k w) as [E | [k' E]]; rewrite E; split; discriminate.
Qed.

Ltac split_step H :=
  repeat match type of H with
         | context [if ?b then _ else _] => destruct b eqn:?
         | context [match ?x with _ => _ end] => destruct x eqn:?
         end;
  try discriminate H.

(** A step stores nothing in [m_lastOperateTime] but the clock reading it
    has just been given. *)
Lemma step_stores (o : Obs) (sh sh' : Shared) (w w' : Locals) :
  step o sh w = Some (sh', w') ->
  m_lastOperateTime sh' = m_lastOperateTime sh
  \/ o = Clock (m_lastOperateTime sh').
Proof.
  unfold step. intros H.
  destruct (pc w) eqn:Epc; destruct o; try discriminate H;
    split_step H; injection H as <- <-; cbn; auto.
Qed.

(** The way a step moves between the places of [run], and what it does to
    [m_isRunning] and to the promise. *)
Lemma step_control (o : Obs) (sh sh' : Shared) (w w' : Locals) :
  step o sh w = Some (sh', w') ->
  pc w <> Finished
  /\ ((pc w = Leaving /\ pc w' = Finished /\ m_isRunning sh' = false
       /\ completions sh' = S (completions sh))
      \/ (pc w <> Leaving /\ pc w' <> Finished
          /\ m_isRunning sh' = m_isRunning sh
          /\ completions sh' = completions sh
          /\ (pc w' = Leaving -> m_isRunning sh = false))).
Proof.
  unfold step. intros H.
  destruct (pc w) eqn:Epc; destruct o; try discriminate H;
    split_step H; injection H as <- <-;
    (split; [discriminate|]);
    first
      [ left; cbn; repeat split; reflexivity
      | right; cbn -[drain];
        repeat match goal with
               | |- context [pc (drain ?k ?x)] =>
                   let D := fresh "D" in
                   pose proof (pc_drain_not k x) as D;
                   generalize dependent (pc (drain k x)); intros
               end;
        repeat split; try discriminate; try tauto; try congruence ].
Qed.

End StepFacts.

(* ------------------------------------------------------------------------- *)
(** ** The timestamp *)

Section TimestampFacts.
Import Worker Lifecycle.
Local Open Scope Z_scope.

(** An event changes [lastOperateTime()] only to the clock reading it
    carries. *)
Lemma sys_step_stores (e : Event) (s s' : System) :
  sys_step e s = Some s' ->
  lastOperateTime s' = lastOperateTime s
  \/ exists i, e = Run i (Clock (lastOperateTime s')).
Proof.
  unfold lastOperateTime.
  destruct e as [| | |i o]; cbn [sys_step].
  - destruct (stopping s); [discriminate|]. intros [= <-].
    unfold start, listen. destruct (m_isRunning (shared s)); cbn; auto.
  - destruct (stopping s); [discriminate|]. intros [= <-].
    unfold stop, shutdown. destruct (m_isRunning (shared s)); cbn; auto.
  - destruct (stopping s && futureReady s); [|discriminate].
    intros [= <-]. cbn. auto.
  - destruct (nth_error (threads s) i) as [w|]; [|discriminate].
    destruct (step o (shared s) w) as [[sh' w']|] eqn:E; [|discriminate].
    intros [= <-]. cbn.
    destruct (step_stores _ _ _ _ _ E) as [K | ->]; [now left|].
    right. now exists i.
Qed.

Lemma clocks_cons_other (e : Event) (evs : list Event) :
  (forall i t, e <> Run i (Clock t)) -> clocks (e :: evs) = clocks evs.
Proof.
  intros H. destruct e as [| | |i o]; try reflexivity.
  destruct o; try reflexivity. now elim (H i t).
Qed.

(** With the stored value below a bound that the coming clock readings
    respect and that they never fall below each other, the values read
    along the events never decrease. *)
Lemma history_sorted (evs : list Event) (s : System) (bound : Z) :
  lastOperateTime s <= bound ->
  StronglySorted Z.le (bound :: clocks evs) ->
  Sorted Z.le (history evs s).
Proof.
  revert s bound. induction evs as [|e evs IH]; intros s bound Hs Hc.
  - cbn. repeat constructor.
  - cbn [history].
    destruct (sys_step e s) as [s'|] eqn:E; [|repeat constructor].
    destruct (sys_step_stores e s s' E) as [Same | [i Stored]].
    + assert (Hd : HdRel Z.le (lastOperateTime s) (history evs s')).
      { destruct evs; cbn; constructor; lia. }
      constructor; [|exact Hd].
      destruct e as [| | |i o];
        try (apply (IH s' bound); [lia | exact Hc]).
      destruct o;
        try (apply (IH s' bound); [lia | exact Hc]).
      cbn [clocks] in Hc.
      apply StronglySorted_inv in Hc as [Hc Hb].
      apply (IH s' t); [|exact Hc].
      apply Forall_inv in Hb. lia.
    + subst e. cbn [clocks] in Hc.
      apply StronglySorted_inv in Hc as [Hc Hb].
      apply Forall_inv in Hb.
      constructor.
      * apply (IH s' (lastOperateTime s')); [lia | exact Hc].
      * destruct evs; cbn; constructor; lia.
Qed.

Lemma Zle_transitive : Relations_1.Transitive Z.le.
Proof. intros x y z. apply Z.le_trans. Qed.

End TimestampFacts.

(** C9: [lastOperateTime()] is 0 at first, and with a clock whose readings
    are not negative and never decrease, the values of [lastOperateTime()]
    along any sequence of events are in non-decreasing order: every store of
    a thread puts a value there that is no smaller than the one before. *)
Theorem lastOperateTime_never_decreases
    (wld : Pool.World) (evs : list Lifecycle.Event) :
  StronglySorted Z.le (0%Z :: Lifecycle.clocks evs) ->
  Lifecycle.lastOperateTime (Lifecycle.init wld) = 0%Z
  /\ StronglySorted Z.le (Lifecycle.history evs (Lifecycle.init wld)).
Proof.
  intros H. split; [reflexivity|].
  apply Sorted_StronglySorted; [exact Zle_transitive|].
  apply (history_sorted evs (Lifecycle.init wld) 0%Z); [cbn; lia | exact H].
Qed.

Lemma lastOperateTime_never_decreases_witness :
  Lifecycle.lastOperateTime (Lifecycle.init (Scenario.machine [0; 1; 2]%Z)) = 0%Z
  /\ StronglySorted Z.le
       (Lifecycle.history Scenario.keyPress
          (Lifecycle.init (Scenario.machine [0; 1; 2]%Z))).
Proof.
  apply (lastOperateTime_never_decreases
           (Scenario.machine [0; 1; 2]%Z) Scenario.keyPress).
  cbn. repeat constructor; lia.
Defined.

(** The run of the key press stores the reading of the clock. *)
Example keyPress_history :
  Lifecycle.history Scenario.keyPress
    (Lifecycle.init (Scenario.machine [0; 1; 2]%Z))
  = [0; 0; 0; 0; 0; 0; 0; 0; 0; 0; 13]%Z.
Proof. vm_compute. reflexivity. Qed.

(* ------------------------------------------------------------------------- *)
(** ** Start and stop *)

Section LifecycleFacts.
Import Worker Lifecycle Shape.

Lemma nth_error_snoc (A : Type) (ws : list A) (w x : A) (i : nat) :
  nth_error (ws ++ [w]) i = Some x ->
  (i < List.length ws /\ In x ws) \/ (i = List.length ws /\ x = w).
Proof.
  intros H.
  destruct (Nat.lt_ge_cases i (List.length ws)) as [L | G].
  - left. split; [exact L|].
    rewrite nth_error_app1 in H by exact L.
    eapply nth_error_In; eauto.
  - rewrite nth_error_app2 in H by exact G.
    destruct (i - List.length ws) as [|k] eqn:E; cbn in H.
    + right. split; [lia | congruence].
    + now destruct k.
Qed.

Lemma replaceNth_snoc (A : Type) (ws : list A) (w w' : A) :
  replaceNth (List.length ws) w' (ws ++ [w]) = ws ++ [w'].
Proof. induction ws as [|x ws IH]; cbn; [reflexivity | now rewrite IH]. Qed.

Lemma finished_iff (w : Locals) : finished w = true <-> pc w = Finished.
Proof. unfold finished. destruct (pc w); split; congruence. Qed.

Lemma filter_live_allFinished (ws : list Locals) :
  allFinished ws -> filter (fun w => negb (finished w)) ws = [].
Proof.
  induction 1 as [|w ws Hw _ IH]; cbn; [reflexivity|].
  apply finished_iff in Hw. now rewrite Hw.
Qed.

Lemma run_events_app (xs ys : list Event) (s : System) :
  run_events (xs ++ ys) s
  = match run_events xs s with
    | Some s' => run_events ys s'
    | None => None
    end.
Proof.
  revert s. induction xs as [|x xs IH]; intros s; cbn; [reflexivity|].
  destruct (sys_step x s); [apply IH | reflexivity].
Qed.

(** A step of a thread of a running system leaves it running, with the
    same threads ended. *)
Lemma running_Run (n i : nat) (o : Obs) (s s' : System) :
  running n s -> sys_step (Run i o) s = Some s' -> running n s'.
Proof.
  intros (Hr & Hs & Hf & Hc & ws & w & Ht & Hn & Ha & HL & HF).
  cbn [sys_step]. rewrite Ht.
  destruct (nth_error (ws ++ [w]) i) as [x|] eqn:Ex; [|discriminate].
  destruct (step o (shared s) x) as [[sh' x']|] eqn:Est; [|discriminate].
  intros [= <-].
  destruct (step_control _ _ _ _ _ Est) as [NF Ctl].
  destruct (nth_error_snoc _ _ _ _ _ Ex) as [[_ Hin] | [-> ->]].
  { unfold allFinished in Ha. rewrite Forall_forall in Ha.
    now elim NF; apply Ha. }
  destruct Ctl as [(L & _) | (_ & NF' & Rk & Ck & Lv)]; [contradiction|].
  unfold running. cbn.
  repeat split; try congruence.
  exists ws, x'. rewrite replaceNth_snoc.
  repeat split; auto.
  intros L. apply Lv in L. congruence.
Qed.

(** A step of a thread while [stop] waits leaves [stop] waiting. *)
Lemma halting_Run (n i : nat) (o : Obs) (s s' : System) :
  halting n s -> sys_step (Run i o) s = Some s' -> halting n s'.
Proof.
  intros (Hr & Hs & Hf & ws & w & Ht & Hn & Ha & Hc).
  cbn [sys_step]. rewrite Ht.
  destruct (nth_error (ws ++ [w]) i) as [x|] eqn:Ex; [|discriminate].
  destruct (step o (shared s) x) as [[sh' x']|] eqn:Est; [|discriminate].
  intros [= <-].
  destruct (step_control _ _ _ _ _ Est) as [NF Ctl].
  destruct (nth_error_snoc _ _ _ _ _ Ex) as [[_ Hin] | [-> ->]].
  { unfold allFinished in Ha. rewrite Forall_forall in Ha.
    now elim NF; apply Ha. }
  assert (Fw : finished w = false).
  { destruct (finished w) eqn:E; [|reflexivity].
    apply finished_iff in E. contradiction. }
  rewrite Fw in Hc.
  unfold halting. cbn. rewrite replaceNth_snoc.
  destruct Ctl as [(L & F' & Rk & Ck) | (_ & NF' & Rk & Ck & Lv)].
  - repeat split; auto.
    exists ws, x'. repeat split; auto.
    apply finished_iff in F'. rewrite F'. lia.
  - repeat split; try congruence.
    exists ws, x'. repeat split; auto.
    destruct (finished x') eqn:E; [apply finished_iff in E; contradiction|].
    lia.
Qed.

Lemma running_runs (n : nat) (evs : list Event) (s s' : System) :
  running n s -> forallb isRun evs = true ->
  run_events evs s = Some s' -> running n s'.
Proof.
  revert s. induction evs as [|e evs IH]; intros s Hs Hr; cbn.
  - now intros [= <-].
  - cbn in Hr. apply andb_prop in Hr as [He Hr].
    destruct e; try discriminate He.
    destruct (sys_step (Run i o) s) as [s1|] eqn:E; [|discriminate].
    apply IH; [eapply running_Run; eauto | exact Hr].
Qed.

Lemma halting_runs (n : nat) (evs : list Event) (s s' : System) :
  halting n s -> forallb isRun evs = true ->
  run_events evs s = Some s' -> halting n s'.
Proof.
  revert s. induction evs as [|e evs IH]; intros s Hs Hr; cbn.
  - now intros [= <-].
  - cbn in Hr. apply andb_prop in Hr as [He Hr].
    destruct e; try discriminate He.
    destruct (sys_step (Run i o) s) as [s1|] eqn:E; [|discriminate].
    apply IH; [eapply halting_Run; eauto | exact Hr].
Qed.

(** What [start] and [stop] do to the three shapes. *)
Lemma start_running (n : nat) (s : System) :
  running n s -> start s = (true, s).
Proof. intros (Hr & _). unfold start, listen. now rewrite Hr. Qed.

Lemma start_idle (n : nat) (s : System) :
  idle n s -> fst (start s) = true /\ running n (snd (start s))
              /\ threads (snd (start s)) = threads s ++ [spawn].
Proof.
  intros (Hr & Hs & Hc & Hn & Ha). unfold start, listen. rewrite Hr. cbn.
  split; [reflexivity|]. split; [|reflexivity].
  unfold running. cbn. repeat split; auto; try congruence.
  exists (threads s), spawn. repeat split; auto; discriminate.
Qed.

Lemma stop_running (n : nat) (s : System) :
  running n s -> halting n (stop s).
Proof.
  intros (Hr & Hs & Hf & Hc & ws & w & Ht & Hn & Ha & HL & HF).
  unfold stop, shutdown. rewrite Hr. unfold halting. cbn.
  repeat split; auto.
  exists ws, w. repeat split; auto.
  destruct (finished w) eqn:E; [apply finished_iff in E; contradiction|].
  lia.
Qed.

Lemma stop_idle (n : nat) (s : System) : idle n s -> stop s = s.
Proof. intros (Hr & _). unfold stop, shutdown. now rewrite Hr. Qed.

Lemma halting_returns (n : nat) (s s' : System) :
  halting n s -> sys_step StopReturns s = Some s' -> idle (S n) s'.
Proof.
  intros (Hr & Hs & Hf & ws & w & Ht & Hn & Ha & Hc).
  cbn [sys_step]. rewrite Hs. cbn [andb].
  unfold futureReady. rewrite Hf, Ht, <- Hn.
  rewrite nth_error_app2, Nat.sub_diag by lia. cbn [nth_error].
  destruct (pc w) eqn:Ew; try discriminate.
  intros [= <-]. unfold idle. cbn.
  assert (Fw : finished w = true) by now apply finished_iff.
  rewrite Fw in Hc.
  repeat split; auto; try lia.
  - rewrite length_app. cbn. lia.
  - apply Forall_app. split; [exact Ha|]. now constructor.
Qed.

Lemma running_facts (n : nat) (s : System) :
  running n s ->
  isRunning s = true /\ live s = 1 /\ List.length (threads s) = S n
  /\ completions (shared s) = n.
Proof.
  intros (Hr & Hs & Hf & Hc & ws & w & Ht & Hn & Ha & HL & HF).
  unfold isRunning, live. rewrite Ht, filter_app, length_app.
  rewrite (filter_live_allFinished ws Ha). cbn.
  destruct (finished w) eqn:E; [apply finished_iff in E; contradiction|].
  cbn. repeat split; auto. rewrite length_app. cbn. lia.
Qed.

Lemma idle_facts (n : nat) (s : System) :
  idle n s ->
  isRunning s = false /\ live s = 0 /\ completions (shared s) = n.
Proof.
  intros (Hr & Hs & Hc & Hn & Ha).
  unfold isRunning, live. now rewrite (filter_live_allFinished _ Ha).
Qed.

(** The shapes are all there is. *)
Lemma invariant_step (e : Event) (s s' : System) :
  invariant s -> sys_step e s = Some s' -> invariant s'.
Proof.
  intros [n [R | [H | I]]] E.
  - destruct e as [| | |i o].
    + cbn in E. pose proof R as (Hr & Hs & _). rewrite Hs in E.
      injection E as <-.
      rewrite (start_running n s R).
      exists n. left. exact R.
    + cbn in E. pose proof R as (Hr & Hs & _). rewrite Hs in E.
      injection E as <-. exists n. right; left. now apply stop_running.
    + cbn in E. destruct R as (Hr & Hs & _). rewrite Hs in E. discriminate.
    + exists n. left. eapply running_Run; eauto.
  - destruct e as [| | |i o].
    + cbn in E. destruct H as (Hr & Hs & _). rewrite Hs in E. discriminate.
    + cbn in E. destruct H as (Hr & Hs & _). rewrite Hs in E. discriminate.
    + exists (S n). right; right. eapply halting_returns; eauto.
    + exists n. right; left. eapply halting_Run; eauto.
  - destruct e as [| | |i o].
    + cbn in E. pose proof I as (Hr & Hs & _). rewrite Hs in E.
      injection E as <-. exists n. left. now apply start_idle.
    + cbn in E. pose proof I as (Hr & Hs & _). rewrite Hs in E.
      injection E as <-. rewrite (stop_idle n s I).
      exists n. right; right. exact I.
    + cbn in E. destruct I as (Hr & Hs & _). rewrite Hs in E. discriminate.
    + cbn in E. destruct I as (Hr & Hs & Hc & Hn & Ha).
      destruct (nth_error (threads s) i) as [w|] eqn:Ew; [|discriminate].
      destruct (step o (shared s) w) as [[sh' w']|] eqn:Est; [|discriminate].
      destruct (step_control _ _ _ _ _ Est) as [NF _].
      unfold allFinished in Ha. rewrite Forall_forall in Ha.
      elim NF. apply Ha. eapply nth_error_In; eauto.
Qed.

Lemma invariant_run (evs : list Event) (s s' : System) :
  invariant s -> run_events evs s = Some s' -> invariant s'.
Proof.
  revert s. induction evs as [|e evs IH]; intros s Hs; cbn.
  - now intros [= <-].
  - destruct (sys_step e s) as [s1|] eqn:E; [|discriminate].
    apply IH. eapply invariant_step; eauto.
Qed.

Lemma invariant_reachable (s : System) : reachable s -> invariant s.
Proof.
  intros (wld & evs & H).
  apply (invariant_run evs (init wld)); [|exact H].
  exists 0. right; right. unfold idle. cbn. repeat split; constructor.
Qed.

(** After [start] the system is running, with as many completions as
    before. *)
Lemma start_shape (s : System) :
  invariant s -> stopping s = false ->
  fst (start s) = true
  /\ running (completions (shared s)) (snd (start s))
  /\ List.length (threads (snd (start s))) <= S (List.length (threads s)).
Proof.
  intros [n [R | [H | I]]] Hs.
  - rewrite (start_running n s R). cbn.
    pose proof (running_facts n s R) as (_ & _ & _ & ->). auto.
  - destruct H as (_ & Hs' & _). congruence.
  - destruct (start_idle n s I) as (A & B & C).
    pose proof (idle_facts n s I) as (_ & _ & ->).
    split; [exact A|]. split; [exact B|].
    rewrite C, length_app. cbn. lia.
Qed.

End LifecycleFacts.

(** C8: [start()] returns true whether it starts the thread or finds it
    running.  Called twice, with any steps of the thread in between, it
    leaves [isRunning()] true both times and one thread alive, the second
    call creating none; and the [stop()] that follows sees one more promise
    fulfilled than there were before the first call. *)
Theorem start_is_idempotent
    (s s1 : Lifecycle.System) (steps : list Lifecycle.Event) :
  Lifecycle.reachable s ->
  Lifecycle.stopping s = false ->
  forallb Lifecycle.isRun steps = true ->
  Lifecycle.run_events steps (snd (Lifecycle.start s)) = Some s1 ->
  fst (Lifecycle.start s) = true
  /\ fst (Lifecycle.start s1) = true
  /\ Lifecycle.isRunning (snd (Lifecycle.start s)) = true
  /\ Lifecycle.isRunning (snd (Lifecycle.start s1)) = true
  /\ snd (Lifecycle.start s1) = s1
  /\ Lifecycle.live (snd (Lifecycle.start s)) = 1
  /\ Lifecycle.live (snd (Lifecycle.start s1)) = 1
  /\ List.length (Lifecycle.threads (snd (Lifecycle.start s1)))
     = List.length (Lifecycle.threads (snd (Lifecycle.start s)))
  /\ List.length (Lifecycle.threads (snd (Lifecycle.start s)))
     <= S (List.length (Lifecycle.threads s))
  /\ Worker.completions (Lifecycle.shared (snd (Lifecycle.start s1)))
     = Worker.completions (Lifecycle.shared s)
  /\ forall evs s3,
       forallb Lifecycle.isRun evs = true ->
       Lifecycle.run_events
         (Lifecycle.CallStop :: evs ++ [Lifecycle.StopReturns])
         (snd (Lifecycle.start s1)) = Some s3 ->
       Lifecycle.isRunning s3 = false
       /\ Lifecycle.live s3 = 0
       /\ Worker.completions (Lifecycle.shared s3)
          = S (Worker.completions (Lifecycle.shared s)).
Proof.
  intros Hreach Hfree Hsteps Hrun.
  pose proof (invariant_reachable s Hreach) as Inv.
  destruct (start_shape s Inv Hfree) as (R1 & Sh1 & Len1).
  set (n := Worker.completions (Lifecycle.shared s)) in *.
  pose proof (running_runs n steps _ _ Sh1 Hsteps Hrun) as Sh2.
  rewrite (start_running n s1 Sh2). cbn [fst snd].
  destruct (running_facts n _ Sh1) as (A1 & B1 & C1 & D1).
  destruct (running_facts n _ Sh2) as (A2 & B2 & C2 & D2).
  repeat (split; [first [assumption | reflexivity | congruence]|]).
  intros evs s3 Hevs Hcycle.
  cbn [Lifecycle.run_events Lifecycle.sys_step] in Hcycle.
  pose proof Sh2 as (_ & Hs & _). rewrite Hs in Hcycle.
  pose proof (stop_running n s1 Sh2) as Sh3.
  rewrite run_events_app in Hcycle.
  destruct (Lifecycle.run_events evs (Lifecycle.stop s1)) as [s2|] eqn:E2;
    [|discriminate].
  pose proof (halting_runs n evs _ _ Sh3 Hevs E2) as Sh4.
  cbn [Lifecycle.run_events] in Hcycle.
  destruct (Lifecycle.sys_step Lifecycle.StopReturns s2) as [s4|] eqn:E4;
    [|discriminate].
  injection Hcycle as <-.
  exact (idle_facts (S n) s4 (halting_returns n s2 s4 Sh4 E4)).
Qed.

Lemma start_is_idempotent_witness :
  fst (Lifecycle.start (Lifecycle.init (Scenario.machine [0; 1; 2]%Z))) = true
  /\ fst (Lifecycle.start Scenario.afterKeyPress) = true
  /\ Lifecycle.isRunning Scenario.started = true
  /\ Lifecycle.isRunning (snd (Lifecycle.start Scenario.afterKeyPress)) = true
  /\ snd (Lifecycle.start Scenario.afterKeyPress) = Scenario.afterKeyPress
  /\ Lifecycle.live Scenario.started = 1
  /\ Lifecycle.live (snd (Lifecycle.start Scenario.afterKeyPress)) = 1
  /\ List.length (Lifecycle.threads (snd (Lifecycle.start Scenario.afterKeyPress)))
     = List.length (Lifecycle.threads Scenario.started)
  /\ List.length (Lifecycle.threads Scenario.started)
     <= S (List.length
             (Lifecycle.threads (Lifecycle.init (Scenario.machine [0; 1; 2]%Z))))
  /\ Worker.completions
       (Lifecycle.shared (snd (Lifecycle.start Scenario.afterKeyPress)))
     = Worker.completions
         (Lifecycle.shared (Lifecycle.init (Scenario.machine [0; 1; 2]%Z)))
  /\ forall evs s3,
       forallb Lifecycle.isRun evs = true ->
       Lifecycle.run_events
         (Lifecycle.CallStop :: evs ++ [Lifecycle.StopReturns])
         (snd (Lifecycle.start Scenario.afterKeyPress)) = Some s3 ->
       Lifecycle.isRunning s3 = false
       /\ Lifecycle.live s3 = 0
       /\ Worker.completions (Lifecycle.shared s3)
          = S (Worker.completions
                 (Lifecycle.shared (Lifecycle.init (Scenario.machine [0; 1; 2]%Z)))).
Proof.
  apply (start_is_idempotent
           (Lifecycle.init (Scenario.machine [0; 1; 2]%Z))
           Scenario.afterKeyPress (tl Scenario.keyPress)).
  - exists (Scenario.machine [0; 1; 2]%Z), []. reflexivity.
  - reflexivity.
  - reflexivity.
  - vm_compute. reflexivity.
Defined.

(** One cycle on the machine with the keyboard: [start], the key press, a
    second [start], [stop] and the end of the thread.  One promise is
    fulfilled, one thread was created, and the descriptor is closed. *)
Example one_cycle_one_completion :
  option_map
    (fun s => (Worker.completions (Lifecycle.shared s),
               List.length (Lifecycle.threads s),
               Lifecycle.isRunning s,
               Pool.fdtable (Worker.os (Lifecycle.shared s))))
    (Lifecycle.run_events
       (Scenario.keyPress
        ++ Lifecycle.CallStart :: Lifecycle.CallStop
           :: Scenario.windDown ++ [Lifecycle.StopReturns])
       (Lifecycle.init (Scenario.machine [0; 1; 2]%Z)))
  = Some (1, 1, false, [0; 1; 2]%Z).
Proof. vm_compute. reflexivity. Qed.

(* ========================================================================= *)
(** * Further properties of the code *)

Import Held.

(* ------------------------------------------------------------------------- *)
(** ** [operator==] *)

(** X1: [operator==] holds between a descriptor and itself, and it holds in
    one direction exactly when it holds in the other. *)
Theorem equal_reflexive_symmetric (d other : InputDevice) :
  Device.equal d d = true
  /\ Device.equal d other = Device.equal other d.
Proof.
  unfold Device.equal. split.
  - rewrite !String.eqb_refl. now destruct (negb (empty (m_handler d))).
  - rewrite (String.eqb_sym (m_handler other)), (String.eqb_sym (m_id other)).
    destruct (String.eqb_spec (m_handler d) (m_handler other)) as [E | N].
    + rewrite E. rewrite !andb_true_r. reflexivity.
    + now rewrite !andb_false_r.
Qed.

(* ------------------------------------------------------------------------- *)
(** ** [open] and [close] *)

Section DescriptorFacts.
Import Pool.
Local Open Scope Z_scope.

Lemma mem_fd_In (x : Z) (l : list Z) : mem_fd x l = true <-> In x l.
Proof.
  unfold mem_fd. rewrite existsb_exists. split.
  - intros (y & Hy & E). apply Z.eqb_eq in E. now subst.
  - intros H. exists x. split; [exact H | apply Z.eqb_refl].
Qed.

Lemma mem_fd_notIn (x : Z) (l : list Z) : mem_fd x l = false <-> ~ In x l.
Proof.
  rewrite <- mem_fd_In. destruct (mem_fd x l); split; congruence.
Qed.

Lemma first_free_spec (fuel : nat) (n : Z) (table : list Z) :
  n <= first_free fuel n table
  /\ (mem_fd (first_free fuel n table) table = false
      \/ (first_free fuel n table = n + Z.of_nat fuel
          /\ forall k, n <= k < n + Z.of_nat fuel -> mem_fd k table = true)).
Proof.
  revert n. induction fuel as [|fuel IH]; intros n; cbn [first_free].
  - split; [lia|]. right. split; [lia|]. intros k Hk. lia.
  - destruct (mem_fd n table) eqn:E.
    + destruct (IH (n + 1)) as (Hle & [Free | (Eq & All)]).
      * split; [lia|]. now left.
      * split; [lia|]. right. split; [lia|].
        intros k Hk. destruct (Z.eq_dec k n) as [-> | Hne]; [exact E|].
        apply All. lia.
    + split; [lia|]. now left.
Qed.

(** [open] hands out a descriptor number that is not negative and not in
    use. *)
Lemma lowest_free_fresh (table : list Z) :
  0 <= lowest_free table /\ mem_fd (lowest_free table) table = false.
Proof.
  unfold lowest_free.
  destruct (first_free_spec (List.length table) 0 table) as (Hle & [Free | (Eq & All)]).
  - auto.
  - split; [exact Hle|].
    destruct (mem_fd (first_free (List.length table) 0 table) table) eqn:E;
      [|reflexivity].
    exfalso.
    assert (Incl : incl (seq 0 (S (List.length table))) (map Z.to_nat table)).
    { intros k Hk. apply in_seq in Hk.
      assert (M : mem_fd (Z.of_nat k) table = true).
      { destruct (Nat.eq_dec k (List.length table)) as [-> | Hne].
        - rewrite Eq in E. exact E.
        - apply All. lia. }
      apply mem_fd_In in M.
      rewrite <- (Nat2Z.id k). now apply in_map. }
    apply NoDup_incl_length in Incl; [|apply seq_NoDup].
    rewrite length_seq, length_map in Incl. lia.
Qed.

End DescriptorFacts.

Lemma open_cases
    (w w' : Pool.World) (d d' : InputDevice) (ok : bool) :
  Pool.open w d = (ok, w', d') ->
  (m_fd d <> (-1)%Z -> ok = true /\ w' = w /\ d' = d)
  /\ (m_fd d = (-1)%Z -> ok = false ->
      d' = d /\ Pool.fdtable w' = Pool.fdtable w)
  /\ (m_fd d = (-1)%Z -> ok = true ->
      (0 <= m_fd d')%Z
      /\ ~ In (m_fd d') (Pool.fdtable w)
      /\ Pool.fdtable w' = m_fd d' :: Pool.fdtable w
      /\ m_id d' = m_id d /\ m_name d' = m_name d
      /\ m_handler d' = m_handler d /\ m_handler d <> "").
Proof.
  unfold Pool.open. intros H.
  destruct (Z.eqb_spec (m_fd d) (-1)) as [E | N]; cbn [negb] in H.
  - destruct (empty (m_handler d)) eqn:Eh.
    + injection H as <- <- <-.
      repeat split; try congruence; try discriminate.
    + unfold Pool.sys_open in H.
      destruct (Pool.mem_string (m_handler d) (Pool.readable w)).
      * destruct (lowest_free_fresh (Pool.fdtable w)) as (Pos & Fresh).
        destruct (Z.ltb_spec (Pool.lowest_free (Pool.fdtable w)) 0) as [L | G];
          [lia|].
        injection H as <- <- <-. cbn.
        split; [congruence|]. split; [discriminate|].
        intros _ _. repeat split; auto.
        -- now apply mem_fd_notIn.
        -- intros K. now rewrite K in Eh.
      * cbn in H. injection H as <- <- <-. cbn.
        split; [congruence|]. split; [auto | discriminate].
  - injection H as <- <- <-.
    split; [auto|]. split; congruence.
Qed.

(** X2: [InputDevice::open] on a descriptor that holds no handle either
    fails and leaves the process's descriptors as they are, or succeeds with
    a handle that is not negative, was not in use before and is in use
    after, the rest of the descriptors and the identity of the device
    unchanged; on a descriptor that holds a handle it succeeds without a
    system call. *)
Theorem open_gives_fresh_handle
    (w w' : Pool.World) (d d' : InputDevice) (ok : bool) :
  Pool.open w d = (ok, w', d') ->
  (m_fd d <> (-1)%Z -> ok = true /\ w' = w /\ d' = d)
  /\ (m_fd d = (-1)%Z -> ok = false ->
      d' = d /\ Pool.fdtable w' = Pool.fdtable w)
  /\ (m_fd d = (-1)%Z -> ok = true ->
      (0 <= m_fd d')%Z
      /\ ~ In (m_fd d') (Pool.fdtable w)
      /\ Pool.fdtable w' = m_fd d' :: Pool.fdtable w
      /\ m_id d' = m_id d /\ m_name d' = m_name d
      /\ m_handler d' = m_handler d /\ m_handler d <> "").
Proof. exact (open_cases w w' d d' ok). Qed.

Lemma open_gives_fresh_handle_witness :
  (m_fd (Scenario.keyboard (-1)) <> (-1)%Z ->
   true = true
   /\ Pool.mkWorld (Some Scenario.registryText) [Scenario.keyboardPath]
         [Scenario.keyboardPath] [3; 0; 1; 2]%Z
         [Pool.SysOpen Scenario.keyboardPath 3]
      = Scenario.machine [0; 1; 2]%Z
   /\ Scenario.keyboard 3 = Scenario.keyboard (-1))
  /\ (m_fd (Scenario.keyboard (-1)) = (-1)%Z -> true = false ->
      Scenario.keyboard 3 = Scenario.keyboard (-1)
      /\ [3; 0; 1; 2]%Z = Pool.fdtable (Scenario.machine [0; 1; 2]%Z))
  /\ (m_fd (Scenario.keyboard (-1)) = (-1)%Z -> true = true ->
      (0 <= m_fd (Scenario.keyboard 3))%Z
      /\ ~ In (m_fd (Scenario.keyboard 3))
             (Pool.fdtable (Scenario.machine [0; 1; 2]%Z))
      /\ [3; 0; 1; 2]%Z
         = m_fd (Scenario.keyboard 3)
           :: Pool.fdtable (Scenario.machine [0; 1; 2]%Z)
      /\ m_id (Scenario.keyboard 3) = m_id (Scenario.keyboard (-1))
      /\ m_name (Scenario.keyboard 3) = m_name (Scenario.keyboard (-1))
      /\ m_handler (Scenario.keyboard 3) = m_handler (Scenario.keyboard (-1))
      /\ m_handler (Scenario.keyboard (-1)) <> "").
Proof.
  apply (open_gives_fresh_handle
           (Scenario.machine [0; 1; 2]%Z)
           (Pool.mkWorld (Some Scenario.registryText) [Scenario.keyboardPath]
              [Scenario.keyboardPath] [3; 0; 1; 2]%Z
              [Pool.SysOpen Scenario.keyboardPath 3])
           (Scenario.keyboard (-1)) (Scenario.keyboard 3) true).
  reflexivity.
Defined.

Section ClosingFacts.
Import Pool.
Local Open Scope Z_scope.

Lemma without_In (hs table : list Z) (x : Z) :
  In x (without hs table) <-> In x table /\ ~ In x hs.
Proof.
  unfold without. rewrite filter_In, negb_true_iff, mem_fd_notIn. tauto.
Qed.

Lemma without_app (hs table1 table2 : list Z) :
  without hs (table1 ++ table2) = without hs table1 ++ without hs table2.
Proof. apply filter_app. Qed.

Lemma without_same (hs table : list Z) :
  (forall x, In x table -> ~ In x hs) -> without hs table = table.
Proof.
  induction table as [|y table IH]; intros H; cbn; [reflexivity|].
  assert (M : mem_fd y hs = false) by (apply mem_fd_notIn, H; now left).
  rewrite M. cbn. f_equal. apply IH. intros x Hx. apply H. now right.
Qed.

Lemma without_all (hs table : list Z) :
  (forall x, In x table -> In x hs) -> without hs table = [].
Proof.
  induction table as [|y table IH]; intros H; cbn; [reflexivity|].
  assert (M : mem_fd y hs = true) by (apply mem_fd_In, H; now left).
  rewrite M. cbn. apply IH. intros x Hx. apply H. now right.
Qed.

Lemma without_ext (hs hs' table : list Z) :
  (forall x, In x hs <-> In x hs') -> without hs table = without hs' table.
Proof.
  intros H. apply filter_ext. intros x. f_equal.
  destruct (mem_fd x hs) eqn:E.
  - symmetry. apply mem_fd_In, H, mem_fd_In, E.
  - symmetry. apply mem_fd_notIn. rewrite <- H. now apply mem_fd_notIn.
Qed.

Lemma without_without (hs hs' table : list Z) :
  without hs (without hs' table) = without (hs' ++ hs) table.
Proof.
  assert (A : forall y, mem_fd y (hs' ++ hs) = mem_fd y hs' || mem_fd y hs)
    by (intros y; apply existsb_app).
  unfold without.
  induction table as [|y table IH]; cbn [filter]; [reflexivity|].
  rewrite A.
  destruct (mem_fd y hs'); cbn [negb orb filter]; [exact IH|].
  destruct (mem_fd y hs); cbn [negb]; [exact IH | now rewrite IH].
Qed.

Lemma openHandles_cons (d : InputDevice) (pool : list InputDevice) :
  openHandles (d :: pool)
  = (if (m_fd d =? -1) then [] else [m_fd d]) ++ openHandles pool.
Proof. unfold openHandles. cbn. now destruct (m_fd d =? -1). Qed.

Lemma openHandles_app (pool1 pool2 : list InputDevice) :
  openHandles (pool1 ++ pool2) = openHandles pool1 ++ openHandles pool2.
Proof. unfold openHandles, handles. now rewrite map_app, filter_app. Qed.

Lemma sys_close_table (w : World) (fd : Z) :
  fdtable (sys_close w fd) = without [fd] (fdtable w).
Proof.
  cbn. apply filter_ext. intros x. cbn. now rewrite orb_false_r.
Qed.

(** What [close] does to the descriptor and to the table. *)
Lemma close_cases (w : World) (d : InputDevice) :
  m_fd (snd (close w d)) = -1
  /\ m_id (snd (close w d)) = m_id d
  /\ m_name (snd (close w d)) = m_name d
  /\ m_handler (snd (close w d)) = m_handler d
  /\ fdtable (fst (close w d)) = without (openHandles [d]) (fdtable w)
  /\ close (fst (close w d)) (snd (close w d)) = close w d.
Proof.
  unfold close, openHandles, handles. cbn [map filter].
  destruct (Z.eqb_spec (m_fd d) (-1)) as [E | N]; cbn [negb fst snd].
  - rewrite E, Z.eqb_refl. cbn [negb]. repeat split; auto.
    symmetry. apply without_same. intros x _ [].
  - cbn. repeat split. apply filter_ext. intros x. cbn.
    now rewrite orb_false_r.
Qed.

Lemma destroy_table (pool : list InputDevice) (w : World) :
  fdtable (destroy w pool) = without (openHandles pool) (fdtable w).
Proof.
  revert w. induction pool as [|d pool IH]; intros w; cbn [destroy].
  - symmetry. apply without_same. intros x _ [].
  - rewrite IH.
    destruct (close_cases w d) as (_ & _ & _ & _ & T & _). rewrite T.
    rewrite without_without.
    change (d :: pool) with ([d] ++ pool). now rewrite openHandles_app.
Qed.

Lemma closeInputDevices_world (pool : list InputDevice) (w : World) :
  fst (closeInputDevices w pool) = destroy w pool.
Proof.
  revert w. induction pool as [|d pool IH]; intros w; cbn; [reflexivity|].
  destruct (close w d) as [w1 d1] eqn:E1.
  specialize (IH w1).
  destruct (closeInputDevices w1 pool) as [w2 rest]. cbn in *. exact IH.
Qed.

Lemma closeInputDevices_pool (pool : list InputDevice) (w : World) :
  snd (closeInputDevices w pool)
  = map (fun d => {| m_fd := -1; m_id := m_id d; m_name := m_name d;
                     m_handler := m_handler d |}) pool.
Proof.
  revert w. induction pool as [|d pool IH]; intros w; cbn; [reflexivity|].
  destruct (close w d) as [w1 d1] eqn:E1.
  specialize (IH w1).
  destruct (closeInputDevices w1 pool) as [w2 rest]. cbn in *.
  rewrite IH. f_equal.
  unfold close in E1.
  destruct (Z.eqb_spec (m_fd d) (-1)) as [E | N]; cbn in E1;
    injection E1 as <- <-; [|reflexivity].
  destruct d as [f i n h]. cbn in *. now subst f.
Qed.

End ClosingFacts.

(** X3: [InputDevice::close] leaves the descriptor without a handle and with
    its identity; the handle it held is gone from the process's descriptors
    and all others stay; a second [close] does nothing more. *)
Theorem close_is_idempotent (w : Pool.World) (d : InputDevice) :
  m_fd (snd (Pool.close w d)) = (-1)%Z
  /\ m_id (snd (Pool.close w d)) = m_id d
  /\ m_name (snd (Pool.close w d)) = m_name d
  /\ m_handler (snd (Pool.close w d)) = m_handler d
  /\ (forall fd, In fd (Pool.fdtable (fst (Pool.close w d)))
                 <-> In fd (Pool.fdtable w) /\ ~ In fd (openHandles [d]))
  /\ Pool.close (fst (Pool.close w d)) (snd (Pool.close w d)) = Pool.close w d.
Proof.
  destruct (close_cases w d) as (A & B & C & D & T & I).
  do 4 (split; [assumption|]). split; [|exact I].
  intros fd. rewrite T. apply without_In.
Qed.

(** X4: [closeInputDevices] leaves every descriptor of the pool without a
    handle and otherwise as it was, and removes exactly the handles the pool
    held from the process's descriptors. *)
Theorem closeInputDevices_closes_all (w : Pool.World) (pool : list InputDevice) :
  Forall (fun d => m_fd d = (-1)%Z) (snd (Pool.closeInputDevices w pool))
  /\ map m_id (snd (Pool.closeInputDevices w pool)) = map m_id pool
  /\ map m_name (snd (Pool.closeInputDevices w pool)) = map m_name pool
  /\ map m_handler (snd (Pool.closeInputDevices w pool)) = map m_handler pool
  /\ Pool.fdtable (fst (Pool.closeInputDevices w pool))
     = without (openHandles pool) (Pool.fdtable w)
  /\ (forall fd, In fd (openHandles pool) ->
                 ~ In fd (Pool.fdtable (fst (Pool.closeInputDevices w pool)))).
Proof.
  rewrite closeInputDevices_world, closeInputDevices_pool, destroy_table.
  rewrite !map_map. cbn.
  repeat split; auto.
  - apply Forall_forall. intros x Hx. apply in_map_iff in Hx as (d & <- & _).
    reflexivity.
  - intros fd Hfd Hin. apply without_In in Hin. tauto.
Qed.

(* ------------------------------------------------------------------------- *)
(** ** What discovery returns *)

Section DiscoveredFacts.

Lemma parseProp_handler (st st' : BlockState) (prop : string) :
  handler st = "" \/ eventPath (handler st) ->
  parseProp st prop = Some st' ->
  handler st' = "" \/ eventPath (handler st').
Proof.
  unfold parseProp. intros H.
  destruct (starts_with idPrefix prop); [intros [= <-]; exact H|].
  destruct (starts_with namePrefix prop); [intros [= <-]; exact H|].
  destruct (starts_with handlerPrefix prop).
  - destruct (eventToken _) as [token|] eqn:E; intros [= <-]; [|exact H].
    right. exists token. split; [reflexivity|].
    unfold eventToken in E. apply find_some in E as [_ E].
    now apply andb_prop in E.
  - destruct (starts_with eventPrefix prop); [|intros [= <-]; exact H].
    destruct (scanEV _ _ _ _); [intros [= <-]; exact H | discriminate].
Qed.

Lemma parseProps_handler (props : list string) (st st' : BlockState) :
  handler st = "" \/ eventPath (handler st) ->
  parseProps st props = Some st' ->
  handler st' = "" \/ eventPath (handler st').
Proof.
  revert st. induction props as [|p props IH]; intros st H; cbn.
  - now intros [= <-].
  - destruct (parseProp st p) as [st1|] eqn:E; [|discriminate].
    apply IH. eapply parseProp_handler; eauto.
Qed.

Lemma parseBlock_descriptors (info : string) (ds : list InputDevice) :
  parseBlock info = Some ds ->
  Forall (fun d => m_fd d = (-1)%Z /\ eventPath (m_handler d)) ds.
Proof.
  unfold parseBlock.
  destruct (propsOf info) as [|p props]; [intros [= <-]; constructor|].
  destruct (parseProps initBlock (p :: props)) as [st|] eqn:E; [|discriminate].
  intros [= <-]. unfold emit.
  destruct (isInputDevice st && negb (empty (handler st))) eqn:C;
    [|constructor].
  apply andb_prop in C as [_ C].
  constructor; [|constructor]. cbn. split; [reflexivity|].
  assert (H0 : handler initBlock = "" \/ eventPath (handler initBlock))
    by (left; reflexivity).
  destruct (parseProps_handler (p :: props) initBlock st H0 E) as [K | K];
    [|exact K].
  rewrite K in C. discriminate.
Qed.

Lemma discovered_descriptors
    (file : option string) (devices out : list InputDevice) :
  availableInputDevices file devices = Some out ->
  exists fresh,
    out = devices ++ fresh
    /\ Forall (fun d => m_fd d = (-1)%Z /\ eventPath (m_handler d)) fresh.
Proof.
  destruct file as [content|]; cbn.
  - intros H. apply parseBlocks_blockwise in H as (dss & F & ->).
    exists (List.concat dss). split; [reflexivity|].
    apply Forall_concat.
    induction F as [|info ds infos dss H _ IH]; constructor; auto.
    now apply parseBlock_descriptors in H.
  - intros [= <-]. exists []. split; [now rewrite app_nil_r | constructor].
Qed.

End DiscoveredFacts.

(** X5: whatever the registry holds, every descriptor discovery adds holds
    no handle and has an access path made of the device directory and a
    handler token that begins with [event]; the descriptors that were in
    the vector before stay in place. *)
Theorem discovery_adds_closed_event_devices
    (file : option string) (devices out : list InputDevice) :
  availableInputDevices file devices = Some out ->
  exists fresh,
    out = devices ++ fresh
    /\ Forall (fun d => m_fd d = (-1)%Z /\ eventPath (m_handler d)) fresh.
Proof. exact (discovered_descriptors file devices out). Qed.

Lemma discovery_adds_closed_event_devices_witness :
  exists fresh,
    [Scenario.keyboard (-1)] = [] ++ fresh
    /\ Forall (fun d => m_fd d = (-1)%Z /\ eventPath (m_handler d)) fresh.
Proof.
  apply (discovery_adds_closed_event_devices
           (Some Scenario.registryText) [] [Scenario.keyboard (-1)]).
  vm_compute. reflexivity.
Defined.

(* ------------------------------------------------------------------------- *)
(** ** The order of the pool and the multiplex set *)

Section OrderFacts.
Import Pool.
Local Open Scope Z_scope.

Lemma insert_sorted_perm (d : InputDevice) (l : list InputDevice) :
  Permutation (insert_sorted d l) (d :: l).
Proof.
  induction l as [|x l IH]; cbn; [reflexivity|].
  destruct (less x d); [|reflexivity].
  rewrite IH. apply perm_swap.
Qed.

Lemma sort_perm (l : list InputDevice) : Permutation (sort l) l.
Proof.
  induction l as [|x l IH]; cbn; [reflexivity|].
  rewrite insert_sorted_perm. now constructor.
Qed.

Lemma insert_sorted_ordered (d : InputDevice) (l : list InputDevice) :
  ordered l -> ordered (insert_sorted d l).
Proof.
  unfold ordered. induction 1 as [|x l Hl IH Hd]; cbn.
  - repeat constructor.
  - unfold less. destruct (Z.ltb_spec (m_fd x) (m_fd d)) as [L | G].
    + constructor; [exact IH|].
      destruct l as [|y l]; cbn.
      * constructor. lia.
      * unfold less. inversion Hd; subst.
        destruct (Z.ltb_spec (m_fd y) (m_fd d)); constructor; lia.
    + constructor; [now constructor | constructor; lia].
Qed.

Lemma sort_ordered (l : list InputDevice) : ordered (sort l).
Proof.
  induction l as [|x l IH]; cbn; [constructor|].
  now apply insert_sorted_ordered.
Qed.

Lemma ordered_last (l : list InputDevice) (d : InputDevice) :
  ordered l -> In d l -> m_fd d <= m_fd (List.last l moved_from).
Proof.
  unfold ordered. intros H. revert d.
  apply Sorted_StronglySorted in H;
    [|intros a b c; apply Z.le_trans].
  induction H as [|x l Hl IH Hx]; intros d Hin; [destruct Hin|].
  destruct l as [|y l].
  - destruct Hin as [<- | []]. cbn. lia.
  - change (List.last (x :: y :: l) moved_from) with (List.last (y :: l) moved_from).
    destruct Hin as [<- | Hin]; [|now apply IH].
    rewrite Forall_forall in Hx.
    apply Z.le_trans with (m_fd y); [apply Hx; now left|].
    apply IH. now left.
Qed.

Lemma FD_SET_In (fd x : Z) (s : fd_set) :
  In x (FD_SET fd s) <-> x = fd \/ In x s.
Proof.
  unfold FD_SET. destruct (mem_fd fd s) eqn:E.
  - apply mem_fd_In in E. split; [auto | intros [-> | H]; auto].
  - rewrite in_app_iff. cbn. intuition.
Qed.

Lemma fold_reconcile (P : Recon -> Prop) (Q : InputDevice -> Prop) :
  (forall st it, Q it -> P st -> P (reconcileOne st it)) ->
  forall fresh st, Forall Q fresh -> P st ->
                   P (fold_left reconcileOne fresh st).
Proof.
  intros Step fresh. induction fresh as [|it fresh IH]; intros st HQ HP; cbn.
  - exact HP.
  - inversion HQ; subst. apply IH; auto.
Qed.

Lemma reconcileOne_mirrored (st : Recon) (it : InputDevice) :
  mirrored st -> mirrored (reconcileOne st it).
Proof.
  unfold mirrored, reconcileOne, handles. intros M.
  assert (Push : forall d fd,
             In fd (FD_SET (to_int d) (allfds st))
             <-> In fd (map m_fd (openedDevices st ++ [d]))).
  { intros d fd. rewrite FD_SET_In, map_app, in_app_iff, M. cbn.
    unfold to_int. intuition. }
  destruct (find_if (fun dev => equal it dev) (devices st)) as [k|].
  - destruct (isOpened (world st) (nth k (devices st) moved_from)).
    + intros fd. cbn. apply Push.
    + destruct (open (world st) it) as [[ok w'] it'].
      destruct ok; intros fd; cbn; [apply Push | apply M].
  - destruct (open (world st) it) as [[ok w'] it'].
    destruct ok; intros fd; cbn; [apply Push | apply M].
Qed.

End OrderFacts.

(** X6: when every descriptor of the pool [openInputDevices] leaves holds a
    handle between 0 and [FD_SETSIZE], so that every [FD_SET] of the rebuild
    was made on such a handle, the multiplex set holds, of the descriptors
    in that range, exactly the handles of the pool. *)
Theorem multiplex_set_mirrors_pool
    (w w' : Pool.World) (pool pool' : list InputDevice) (fds : Pool.fd_set) :
  Pool.openInputDevices w pool = Some (w', fds, pool') ->
  Forall validFd (Pool.handles pool') ->
  forall fd, validFd fd ->
             (Pool.FD_ISSET fd fds = true <-> In fd (Pool.handles pool')).
Proof.
  unfold Pool.openInputDevices.
  destruct (availableInputDevices (Pool.registry w) []) as [fresh|];
    [|discriminate].
  intros [= _ <- <-] _ fd _.
  unfold Pool.FD_ISSET. rewrite mem_fd_In.
  assert (M : mirrored
                (fold_left Pool.reconcileOne fresh
                   (Pool.mkRecon w Pool.FD_ZERO pool []))).
  { apply (fold_reconcile mirrored (fun _ => True)).
    - intros st it _. apply reconcileOne_mirrored.
    - apply Forall_forall. auto.
    - intros x. cbn. tauto. }
  rewrite (M fd). unfold Pool.handles.
  split; intros H; eapply Permutation_in; try exact H;
    apply Permutation_map; [symmetry|]; apply sort_perm.
Qed.

Lemma multiplex_set_mirrors_pool_witness :
  Pool.handles [Scenario.keyboard 3] = [3%Z]
  /\ forall fd, validFd fd ->
                (Pool.FD_ISSET fd [3%Z] = true
                 <-> In fd (Pool.handles [Scenario.keyboard 3])).
Proof.
  split; [reflexivity|].
  apply (multiplex_set_mirrors_pool
           (Scenario.machine [0; 1; 2]%Z)
           (Pool.mkWorld (Some Scenario.registryText) [Scenario.keyboardPath]
              [Scenario.keyboardPath] [3; 0; 1; 2]%Z
              [Pool.SysOpen Scenario.keyboardPath 3])
           [] [Scenario.keyboard 3] [3%Z]).
  - vm_compute. reflexivity.
  - repeat constructor; unfold FD_SETSIZE; cbn; lia.
Defined.

(** X7: after [openInputDevices] the pool is in the order of its handles,
    so that its last element, the one [select] is given, holds the largest
    handle of the pool. *)
Theorem pool_is_ordered
    (w w' : Pool.World) (pool pool' : list InputDevice) (fds : Pool.fd_set) :
  Pool.openInputDevices w pool = Some (w', fds, pool') ->
  ordered pool'
  /\ forall d, In d pool' ->
               (m_fd d <= Device.to_int (List.last pool' moved_from))%Z.
Proof.
  unfold Pool.openInputDevices.
  destruct (availableInputDevices (Pool.registry w) []) as [fresh|];
    [|discriminate].
  intros [= _ _ <-].
  split; [apply sort_ordered|].
  intros d. apply ordered_last, sort_ordered.
Qed.

Lemma pool_is_ordered_witness :
  ordered [Scenario.keyboard 3]
  /\ forall d, In d [Scenario.keyboard 3] ->
               (m_fd d <= Device.to_int (List.last [Scenario.keyboard 3] moved_from))%Z.
Proof.
  apply (pool_is_ordered
           (Scenario.machine [0; 1; 2]%Z)
           (Pool.mkWorld (Some Scenario.registryText) [Scenario.keyboardPath]
              [Scenario.keyboardPath] [3; 0; 1; 2]%Z
              [Pool.SysOpen Scenario.keyboardPath 3])
           [] [Scenario.keyboard 3] [3%Z]).
  vm_compute. reflexivity.
Defined.

(* ------------------------------------------------------------------------- *)
(** ** The descriptors across a rebuild *)

Section RebuildFacts.
Import Pool.
Local Open Scope Z_scope.

Lemma isOpened_true_closed (w : World) (d : InputDevice) :
  isOpened w d = true -> m_fd d = -1.
Proof.
  unfold isOpened. destruct (sys_access w (m_handler d)); [|discriminate].
  apply Z.eqb_eq.
Qed.

Lemma assign_same_fd (k : nat) (d : InputDevice) (ds : list InputDevice) :
  m_fd (nth k ds moved_from) = m_fd d ->
  map m_fd (assign k d ds) = map m_fd ds.
Proof.
  revert k. induction ds as [|x ds IH]; intros k H; [now destruct k|].
  destruct k as [|k]; cbn in *.
  - now rewrite H.
  - now rewrite IH.
Qed.

Lemma openHandles_single (d : InputDevice) :
  openHandles [d] = if m_fd d =? -1 then [] else [m_fd d].
Proof. rewrite openHandles_cons. cbn. apply app_nil_r. Qed.

Lemma openHandles_same_fds (pool pool' : list InputDevice) :
  map m_fd pool = map m_fd pool' -> openHandles pool = openHandles pool'.
Proof. unfold openHandles, handles. now intros ->. Qed.

Lemma filter_perm (A : Type) (f : A -> bool) (l l' : list A) :
  Permutation l l' -> Permutation (filter f l) (filter f l').
Proof.
  induction 1 as [|x l l' _ IH|x y l|l l' l'' _ IH1 _ IH2]; cbn.
  - constructor.
  - destruct (f x); [now constructor | exact IH].
  - destruct (f x), (f y); try reflexivity. apply perm_swap.
  - now transitivity (filter f l').
Qed.

Lemma openHandles_sort (pool : list InputDevice) :
  Permutation (openHandles (sort pool)) (openHandles pool).
Proof.
  unfold openHandles, handles.
  apply filter_perm, Permutation_map, sort_perm.
Qed.

(** An iteration of the loop keeps what holds between iterations. *)
Lemma reconcileOne_rebuilding
    (table : list Z) (pool : list InputDevice) (st : Recon) (it : InputDevice) :
  m_fd it = -1 ->
  rebuilding table pool st -> rebuilding table pool (reconcileOne st it).
Proof.
  intros Hit (Hd & Hn & Hf & Ht).
  assert (Opened : forall ok w' it',
             open (world st) it = (ok, w', it') ->
             rebuilding table pool
               (if ok
                then {| world := w';
                        allfds := FD_SET (to_int it') (allfds st);
                        devices := devices st;
                        openedDevices := openedDevices st ++ [it'] |}
                else {| world := w'; allfds := allfds st;
                        devices := devices st;
                        openedDevices := openedDevices st |})).
  { intros ok w' it' E. apply open_cases in E as (_ & F & S).
    destruct ok.
    - destruct (S Hit eq_refl) as (Pos & Fresh & Tab & _).
      unfold rebuilding. cbn [world devices openedDevices].
      rewrite openHandles_app, openHandles_single.
      destruct (Z.eqb_spec (m_fd it') (-1)) as [E1 | _]; [lia|].
      rewrite Ht in Fresh.
      assert (Fn : ~ In (m_fd it') (openHandles (openedDevices st))).
      { intros K. apply Fresh, in_or_app. left. now apply in_rev in K. }
      assert (Ft : ~ In (m_fd it') table).
      { intros K. apply Fresh, in_or_app. now right. }
      repeat split.
      + exact Hd.
      + apply NoDup_app; [exact Hn | repeat constructor; auto |].
        intros a Ha [<- | []]. contradiction.
      + apply in_app_or in H as [H | [<- | []]]; [now apply Hf | exact Pos].
      + apply in_app_or in H as [H | [<- | []]]; [now apply Hf | exact Ft].
      + rewrite Tab, Ht, rev_app_distr. reflexivity.
    - destruct (F Hit eq_refl) as (_ & Tab).
      unfold rebuilding. cbn [world devices openedDevices].
      rewrite Tab. auto. }
  unfold reconcileOne.
  destruct (find_if (fun dev => equal it dev) (devices st)) as [k|].
  - destruct (isOpened (world st) (nth k (devices st) moved_from)) eqn:Eo.
    + apply isOpened_true_closed in Eo.
      unfold rebuilding. cbn [world devices openedDevices].
      rewrite openHandles_app, openHandles_single, Eo. cbn [Z.eqb].
      rewrite app_nil_r.
      repeat split; auto; try (now apply Hf).
      now rewrite assign_same_fd.
    + destruct (open (world st) it) as [[ok w'] it'] eqn:E.
      exact (Opened ok w' it' eq_refl).
  - destruct (open (world st) it) as [[ok w'] it'] eqn:E.
    exact (Opened ok w' it' eq_refl).
Qed.

(** A rebuild closes every handle the previous pool held and holds new ones
    instead, and the descriptors of the process beside the pool stay. *)
Lemma rebuild_accounted
    (base : list Z) (w w' : World) (pool pool' : list InputDevice) (fds : fd_set) :
  accounted base (fdtable w) pool ->
  openInputDevices w pool = Some (w', fds, pool') ->
  accounted base (fdtable w') pool'
  /\ (forall h, In h (openHandles pool) -> ~ In h (fdtable w'))
  /\ (forall h, In h (openHandles pool') ->
                0 <= h /\ ~ In h (fdtable w) /\ In h (fdtable w')).
Proof.
  intros (An & Ai & Ab). unfold openInputDevices.
  destruct (availableInputDevices (registry w) []) as [fresh|] eqn:Ed;
    [|discriminate].
  apply discovered_descriptors in Ed as (fresh' & Ef & Closed).
  cbn in Ef. subst fresh'.
  intros [= <- _ <-].
  set (st0 := {| world := w; allfds := FD_ZERO; devices := pool;
                 openedDevices := [] |}).
  assert (R : rebuilding (fdtable w) pool (fold_left reconcileOne fresh st0)).
  { apply (fold_reconcile (rebuilding (fdtable w) pool)
             (fun d => m_fd d = -1 /\ eventPath (m_handler d))).
    - intros st it [Hit _]. now apply reconcileOne_rebuilding.
    - exact Closed.
    - unfold rebuilding. cbn. repeat split; auto; try constructor;
        destruct H. }
  destruct R as (Rd & Rn & Rf & Rt).
  set (st := fold_left reconcileOne fresh st0) in *.
  set (N := openHandles (openedDevices st)) in *.
  set (H := openHandles pool) in *.
  assert (Tab : fdtable (destroy (world st) (devices st)) = rev N ++ base).
  { rewrite destroy_table, (openHandles_same_fds _ _ Rd), Rt.
    fold H. rewrite without_app, Ab. f_equal.
    apply without_same. intros x Hx Hh.
    apply in_rev in Hx. apply Rf in Hx as (_ & Hx). apply Hx, Ai, Hh. }
  assert (P : Permutation (openHandles (sort (openedDevices st))) N)
    by apply openHandles_sort.
  assert (Base : forall x, In x base -> In x (fdtable w) /\ ~ In x H).
  { intros x Hx. rewrite <- Ab in Hx. now apply without_In in Hx. }
  rewrite Tab. repeat split.
  - eapply Permutation_NoDup; [symmetry; exact P | exact Rn].
  - intros x Hx. apply (Permutation_in _ P) in Hx.
    apply in_or_app. left. now apply in_rev in Hx.
  - rewrite (without_ext _ N) by
      (intros x; split; apply Permutation_in; [exact P | symmetry; exact P]).
    rewrite without_app.
    rewrite (without_all N (rev N)) by (intros x Hx; now apply in_rev in Hx).
    cbn. apply without_same. intros x Hx Hn.
    apply Base in Hx as (Hx & _). apply Rf in Hn as (_ & Hn). contradiction.
  - intros h Hh Hin. apply in_app_or in Hin as [Hin | Hin].
    + apply in_rev in Hin. apply Rf in Hin as (_ & Hin). apply Hin, Ai, Hh.
    + apply Base in Hin as (_ & Hin). contradiction.
  - apply (Permutation_in _ P) in H0. now apply Rf in H0.
  - apply (Permutation_in _ P) in H0. now apply Rf in H0.
  - apply (Permutation_in _ P) in H0.
    apply in_or_app. left. now apply in_rev in H0.
Qed.

End RebuildFacts.

(** X8: when the previous pool accounts for its descriptors (its open
    handles are distinct and held by the process), a rebuild by
    [openInputDevices] leaves a pool that accounts for its descriptors
    again, with the same descriptors of the process beside the pool; every
    handle the previous pool held is closed, and every handle of the new
    pool was opened during the rebuild. *)
Theorem rebuild_accounts_for_descriptors
    (base : list Z) (w w' : Pool.World) (pool pool' : list InputDevice)
    (fds : Pool.fd_set) :
  accounted base (Pool.fdtable w) pool ->
  Pool.openInputDevices w pool = Some (w', fds, pool') ->
  accounted base (Pool.fdtable w') pool'
  /\ (forall h, In h (openHandles pool) -> ~ In h (Pool.fdtable w'))
  /\ (forall h, In h (openHandles pool') ->
                (0 <= h)%Z /\ ~ In h (Pool.fdtable w)
                /\ In h (Pool.fdtable w')).
Proof. exact (rebuild_accounted base w w' pool pool' fds). Qed.

Lemma rebuild_accounts_for_descriptors_witness :
  accounted [0; 1; 2]%Z [4; 0; 1; 2]%Z [Scenario.keyboard 4]
  /\ (forall h, In h (openHandles [Scenario.keyboard 3]) ->
                ~ In h [4; 0; 1; 2]%Z)
  /\ (forall h, In h (openHandles [Scenario.keyboard 4]) ->
                (0 <= h)%Z /\ ~ In h [3; 0; 1; 2]%Z /\ In h [4; 0; 1; 2]%Z).
Proof.
  apply (rebuild_accounts_for_descriptors [0; 1; 2]%Z
           (Scenario.machine [3; 0; 1; 2]%Z)
           (Pool.mkWorld (Some Scenario.registryText) [Scenario.keyboardPath]
              [Scenario.keyboardPath] [4; 0; 1; 2]%Z
              [Pool.SysOpen Scenario.keyboardPath 4; Pool.SysClose 3])
           [Scenario.keyboard 3] [Scenario.keyboard 4] [4%Z]).
  - unfold accounted. cbn. repeat split.
    + repeat constructor. intros [].
    + intros x [<- | []]. now left.
  - vm_compute. reflexivity.
Defined.

(* ------------------------------------------------------------------------- *)
(** ** The descriptors across the life of a thread *)

Section LedgerFacts.
Import Pool Worker Lifecycle Shape.
Local Open Scope Z_scope.

Lemma devices_drainFrom (rest : list InputDevice) (k : nat) (w : Locals) :
  Worker.devices (drainFrom k rest w) = Worker.devices w.
Proof.
  revert k. induction rest as [|it rest IH]; intros k; cbn; [reflexivity|].
  destruct (FD_ISSET (to_int it) (rfds w)); [reflexivity | apply IH].
Qed.

Lemma devices_drain (k : nat) (w : Locals) :
  Worker.devices (drain k w) = Worker.devices w.
Proof. apply devices_drainFrom. Qed.

Ltac split_cases H :=
  repeat match type of H with
         | context [if ?b then _ else _] => destruct b eqn:?
         | context [match ?x with _ => _ end] => destruct x eqn:?
         end;
  try discriminate H.

(** The steps that touch the pool or the descriptors of the process: the
    rebuild, the close after a short read, and the exit. *)
Lemma step_pool (o : Obs) (sh sh' : Shared) (w w' : Locals) :
  step o sh w = Some (sh', w') ->
  (Worker.devices w' = Worker.devices w /\ fdtable (os sh') = fdtable (os sh))
  \/ (exists wld fds,
        fdtable wld = fdtable (os sh)
        /\ openInputDevices wld (Worker.devices w)
           = Some (os sh', fds, Worker.devices w'))
  \/ (exists k,
        os sh' = fst (close (os sh) (nth k (Worker.devices w) moved_from))
        /\ Worker.devices w'
           = assign k (snd (close (os sh) (nth k (Worker.devices w) moved_from)))
                    (Worker.devices w))
  \/ (pc w = Leaving
      /\ os sh' = fst (closeInputDevices (os sh) (Worker.devices w))
      /\ Worker.devices w' = snd (closeInputDevices (os sh) (Worker.devices w))).
Proof.
  unfold step. intros H.
  destruct (pc w) eqn:Epc; destruct o; try discriminate H.
  - injection H as <- <-. left. split; reflexivity.
  - split_cases H; injection H as <- <-; left; split; reflexivity.
  - destruct (openInputDevices (refresh reg pres rd (os sh)) (Worker.devices w))
      as [[[wld' fds] ds]|] eqn:E.
    + right; left. exists (refresh reg pres rd (os sh)), fds.
      split; [reflexivity|].
      destruct ds; injection H as <- <-; cbn; exact E.
    + injection H as <- <-. left. split; reflexivity.
  - injection H as <- <-. left. split; reflexivity.
  - split_cases H; injection H as <- <-; left; split; reflexivity.
  - split_cases H; injection H as <- <-; left; split; reflexivity.
  - destruct (r <? 0); [injection H as <- <-; left; split; reflexivity|].
    destruct (r =? 0); injection H as <- <-; left;
      (split; [|reflexivity]); [reflexivity | now rewrite devices_drain].
  - destruct (n =? sizeof_event).
    + destruct (isInteraction type); injection H as <- <-; left;
        (split; [|reflexivity]); [reflexivity | now rewrite devices_drain].
    + destruct (n <=? 0).
      * destruct (close (os sh) (nth k (Worker.devices w) moved_from))
          as [wld it'] eqn:E.
        injection H as <- <-. right; right; left. exists k.
        rewrite E. cbn. split; reflexivity.
      * injection H as <- <-. left.
        split; [now rewrite devices_drain | reflexivity].
  - injection H as <- <-. left.
    split; [now rewrite devices_drain | reflexivity].
  - destruct (closeInputDevices (os sh) (Worker.devices w)) as [wld ds] eqn:E.
    injection H as <- <-. right; right; right. cbn. auto.
Qed.

Lemma assign_app (l1 l2 : list InputDevice) (x y : InputDevice) :
  assign (List.length l1) y (l1 ++ x :: l2) = l1 ++ y :: l2.
Proof. induction l1 as [|a l1 IH]; cbn; [reflexivity | now rewrite IH]. Qed.

Lemma assign_overflow (k : nat) (y : InputDevice) (l : list InputDevice) :
  (List.length l <= k)%nat -> assign k y l = l.
Proof.
  revert k. induction l as [|a l IH]; intros k H; [now destruct k|].
  destruct k as [|k]; cbn in *; [lia|]. rewrite IH; [reflexivity | lia].
Qed.

Lemma openHandles_closed (pool : list InputDevice) :
  Forall (fun d => m_fd d = -1) pool -> openHandles pool = [].
Proof.
  induction 1 as [|d pool Hd _ IH]; [reflexivity|].
  rewrite openHandles_cons, Hd, IH. reflexivity.
Qed.

(** The close after a short read keeps the account. *)
Lemma close_nth_accounted
    (base : list Z) (w : World) (ds : list InputDevice) (k : nat) :
  accounted base (fdtable w) ds ->
  accounted base
    (fdtable (fst (close w (nth k ds moved_from))))
    (assign k (snd (close w (nth k ds moved_from))) ds).
Proof.
  intros (An & Ai & Ab).
  destruct (Nat.lt_ge_cases k (List.length ds)) as [L | G].
  - destruct (nth_split ds moved_from L) as (l1 & l2 & E & Len).
    remember (nth k ds moved_from) as it eqn:Hit. clear Hit. subst ds.
    destruct (close_cases w it) as (Cfd & _ & _ & _ & Ct & _).
    rewrite Ct. rewrite <- Len, assign_app.
    rewrite openHandles_app, openHandles_cons in An, Ai, Ab.
    unfold accounted.
    rewrite openHandles_app, openHandles_cons, Cfd. cbn [Z.eqb app].
    rewrite openHandles_single.
    destruct (m_fd it =? -1) eqn:Efd; cbn [app] in *.
    + rewrite (without_same [] (fdtable w)) by (intros x _ []). auto.
    + apply NoDup_remove in An as (An & Anot).
      repeat split.
      * exact An.
      * intros x Hx. apply without_In. split.
        -- apply Ai. apply in_app_or in Hx as [Hx | Hx];
             apply in_or_app; [now left | right; now right].
        -- intros [<- | []]. contradiction.
      * rewrite without_without, <- Ab. apply without_ext.
        intros x. cbn. rewrite !in_app_iff. cbn. tauto.
  - rewrite (nth_overflow ds moved_from G). cbn.
    rewrite assign_overflow by exact G.
    split; [exact An|]. split; [exact Ai | exact Ab].
Qed.

(** A thread that has ended holds no handle. *)
Lemma step_finished_closed (o : Obs) (sh sh' : Shared) (w w' : Locals) :
  step o sh w = Some (sh', w') ->
  pc w' = Finished -> openHandles (Worker.devices w') = [].
Proof.
  intros H F.
  destruct (step_control _ _ _ _ _ H) as (_ & [(L & _) | (_ & NF & _)]);
    [|contradiction].
  destruct (step_pool _ _ _ _ _ H)
    as [(Ed & Et) | [(wld & fds & Et & Eo) | [(k & Eo & Ed) | (Epc & Eo & Ed)]]];
    revert H; unfold step; rewrite L; destruct o; try discriminate;
    destruct (closeInputDevices (os sh) (Worker.devices w)) as [wld0 ds] eqn:E;
    intros [= <- <-]; cbn;
    pose proof (closeInputDevices_pool (Worker.devices w) (os sh)) as P;
    rewrite E in P; cbn in P; rewrite P;
    apply openHandles_closed, Forall_forall; intros x Hx;
    apply in_map_iff in Hx as (d & <- & _); reflexivity.
Qed.

(** Every step of a thread keeps the account of its pool. *)
Lemma step_accounted
    (base : list Z) (o : Obs) (sh sh' : Shared) (w w' : Locals) :
  accounted base (fdtable (os sh)) (Worker.devices w) ->
  step o sh w = Some (sh', w') ->
  accounted base (fdtable (os sh')) (Worker.devices w').
Proof.
  intros A H.
  destruct (step_pool _ _ _ _ _ H)
    as [(Ed & Et) | [(wld & fds & Et & Eo) | [(k & Eo & Ed) | (Epc & Eo & Ed)]]].
  - rewrite Ed, Et. exact A.
  - rewrite <- Et in A.
    now destruct (rebuild_accounted base wld (os sh') _ _ fds A Eo).
  - rewrite Eo, Ed. now apply close_nth_accounted.
  - assert (C : openHandles (Worker.devices w') = []).
    { rewrite Ed, closeInputDevices_pool. apply openHandles_closed.
      apply Forall_forall. intros x Hx.
      apply in_map_iff in Hx as (d & <- & _). reflexivity. }
    destruct A as (An & Ai & Ab).
    unfold accounted. rewrite C, Eo, closeInputDevices_world, destroy_table, Ab.
    repeat split.
    + constructor.
    + intros x [].
    + apply without_same. intros x _ [].
Qed.

End LedgerFacts.

Section SystemLedgerFacts.
Import Pool Worker Lifecycle Shape.

Lemma list_last_cases (A : Type) (l : list A) :
  l = [] \/ exists ws w, l = ws ++ [w].
Proof.
  destruct l as [|x l] using rev_ind; [now left|].
  right. now exists l, x.
Qed.

(** The threads of a system: all have ended, or all but the newest. *)
Lemma invariant_threads (s : System) :
  invariant s ->
  (m_isRunning (shared s) = false /\ stopping s = false
   /\ allFinished (threads s))
  \/ (exists ws w, threads s = ws ++ [w] /\ allFinished ws).
Proof.
  intros [n [R | [H | I]]].
  - destruct R as (_ & _ & _ & _ & ws & w & Ht & _ & Ha & _).
    right. now exists ws, w.
  - destruct H as (_ & _ & _ & ws & w & Ht & _ & Ha & _).
    right. now exists ws, w.
  - destruct I as (Hr & Hs & _ & _ & Ha). left. auto.
Qed.

(** Only the newest thread takes steps. *)
Lemma run_newest_thread (i : nat) (o : Obs) (s s' : System) :
  invariant s -> sys_step (Run i o) s = Some s' ->
  exists ws w sh' w',
    threads s = ws ++ [w]
    /\ step o (shared s) w = Some (sh', w')
    /\ shared s' = sh' /\ threads s' = ws ++ [w'].
Proof.
  intros Inv. cbn [sys_step].
  destruct (nth_error (threads s) i) as [x|] eqn:Ex; [|discriminate].
  destruct (step o (shared s) x) as [[sh' x']|] eqn:Est; [|discriminate].
  intros [= <-].
  destruct (step_control _ _ _ _ _ Est) as [NF _].
  destruct (invariant_threads s Inv) as [(_ & _ & Ha) | (ws & w & Ht & Ha)].
  - unfold allFinished in Ha. rewrite Forall_forall in Ha.
    elim NF. apply Ha. eapply nth_error_In; eauto.
  - rewrite Ht in Ex.
    destruct (nth_error_snoc _ _ _ _ _ Ex) as [[_ Hin] | [-> ->]].
    + unfold allFinished in Ha. rewrite Forall_forall in Ha.
      now elim NF; apply Ha.
    + exists ws, w, sh', x'. cbn. rewrite Ht, replaceNth_snoc. auto.
Qed.

(** With all threads ended the process holds what it held at first. *)
Lemma ledger_all_finished (base : list Z) (s : System) :
  ledger base s -> allFinished (threads s) ->
  fdtable (os (shared s)) = base.
Proof.
  intros (L0 & L1 & L2) Ha.
  destruct (list_last_cases _ (threads s)) as [E | (ws & w & E)]; [auto|].
  destruct (L1 ws w E) as (_ & _ & Ab).
  assert (C : openHandles (Worker.devices w) = []).
  { apply L2.
    - rewrite E. apply in_or_app. right. now left.
    - unfold allFinished in Ha. rewrite Forall_forall in Ha.
      apply Ha. rewrite E. apply in_or_app. right. now left. }
  rewrite C in Ab. rewrite <- Ab.
  symmetry. apply without_same. intros x _ [].
Qed.

Lemma ledger_step (base : list Z) (e : Event) (s s' : System) :
  invariant s -> ledger base s -> sys_step e s = Some s' -> ledger base s'.
Proof.
  intros Inv L E. destruct e as [| | |i o].
  - cbn in E. destruct (stopping s) eqn:Hs; [discriminate|].
    injection E as <-. unfold start, listen.
    destruct (m_isRunning (shared s)) eqn:Hr; [exact L|]. cbn [snd].
    assert (Ha : allFinished (threads s)).
    { destruct Inv as [n [R | [H | I]]].
      - destruct R as (R & _). congruence.
      - destruct H as (_ & H & _). congruence.
      - now destruct I as (_ & _ & _ & _ & Ha). }
    pose proof (ledger_all_finished base s L Ha) as T.
    destruct L as (L0 & L1 & L2).
    unfold ledger. cbn. repeat split.
    + intros K. symmetry in K. now apply app_cons_not_nil in K.
    + apply app_inj_tail in H as (_ & <-). cbn. constructor.
    + apply app_inj_tail in H as (_ & <-). cbn. intros x [].
    + apply app_inj_tail in H as (_ & <-). cbn. rewrite T.
      apply without_same. intros x _ [].
    + intros w Hin Hf. apply in_app_or in Hin as [Hin | [<- | []]];
        [now apply L2 | discriminate].
  - cbn in E. destruct (stopping s); [discriminate|].
    injection E as <-. unfold stop, shutdown.
    destruct (m_isRunning (shared s)); exact L.
  - cbn in E. destruct (stopping s && futureReady s); [|discriminate].
    injection E as <-. exact L.
  - destruct (run_newest_thread i o s s' Inv E)
      as (ws & w & sh' & w' & Ht & Est & Esh & Et').
    destruct L as (L0 & L1 & L2).
    unfold ledger. rewrite Esh, Et'. repeat split.
    + intros K. symmetry in K. now apply app_cons_not_nil in K.
    + apply app_inj_tail in H as (_ & <-).
      destruct (step_accounted base o _ _ _ _ (L1 ws w Ht) Est) as (A & _).
      exact A.
    + apply app_inj_tail in H as (_ & <-).
      destruct (step_accounted base o _ _ _ _ (L1 ws w Ht) Est) as (_ & A & _).
      exact A.
    + apply app_inj_tail in H as (_ & <-).
      destruct (step_accounted base o _ _ _ _ (L1 ws w Ht) Est) as (_ & _ & A).
      exact A.
    + intros x Hin Hf. apply in_app_or in Hin as [Hin | [<- | []]].
      * apply L2; [|exact Hf]. rewrite Ht. apply in_or_app. now left.
      * eapply step_finished_closed; eauto.
Qed.

Lemma ledger_run (base : list Z) (evs : list Event) (s s' : System) :
  invariant s -> ledger base s -> run_events evs s = Some s' ->
  invariant s' /\ ledger base s'.
Proof.
  revert s. induction evs as [|e evs IH]; intros s Inv L; cbn.
  - intros [= <-]. auto.
  - destruct (sys_step e s) as [s1|] eqn:E; [|discriminate].
    apply IH; [eapply invariant_step | eapply ledger_step]; eauto.
Qed.

Lemma ledger_init (wld : World) : ledger (fdtable wld) (init wld).
Proof.
  unfold ledger. cbn. repeat split; auto.
  - now apply app_cons_not_nil in H.
  - now apply app_cons_not_nil in H.
  - now apply app_cons_not_nil in H.
  - intros w [].
Qed.

Lemma invariant_init (wld : World) : invariant (init wld).
Proof.
  exists 0. right; right. unfold idle. cbn. repeat split; constructor.
Qed.

End SystemLedgerFacts.

(** X9: at every moment of every run, the descriptors the process holds are
    those it held before the first [start] together with the handles of the
    pool of the newest thread: the handles of the pool are distinct, the
    process holds them, and without them its descriptor table is the
    original one.  Threads that have ended hold no handle. *)
Theorem descriptors_are_accounted_for
    (wld : Pool.World) (evs : list Lifecycle.Event) (s : Lifecycle.System) :
  Lifecycle.run_events evs (Lifecycle.init wld) = Some s ->
  (forall ws w, Lifecycle.threads s = ws ++ [w] ->
                accounted (Pool.fdtable wld)
                  (Pool.fdtable (Worker.os (Lifecycle.shared s)))
                  (Worker.devices w))
  /\ (forall w, In w (Lifecycle.threads s) ->
                Worker.pc w = Worker.Finished ->
                openHandles (Worker.devices w) = []).
Proof.
  intros H.
  destruct (ledger_run (Pool.fdtable wld) evs _ _
              (invariant_init wld) (ledger_init wld) H) as (_ & _ & L1 & L2).
  split; assumption.
Qed.

Lemma descriptors_are_accounted_for_witness :
  (forall ws w, Lifecycle.threads Scenario.afterKeyPress = ws ++ [w] ->
                accounted (Pool.fdtable (Scenario.machine [0; 1; 2]%Z))
                  (Pool.fdtable
                     (Worker.os (Lifecycle.shared Scenario.afterKeyPress)))
                  (Worker.devices w))
  /\ (forall w, In w (Lifecycle.threads Scenario.afterKeyPress) ->
                Worker.pc w = Worker.Finished ->
                openHandles (Worker.devices w) = []).
Proof.
  apply (descriptors_are_accounted_for
           (Scenario.machine [0; 1; 2]%Z) Scenario.keyPress
           Scenario.afterKeyPress).
  vm_compute. reflexivity.
Defined.

(** X10: whenever the monitor is neither running nor inside a [stop], the
    process holds exactly the descriptors it held before the first [start],
    no thread is alive, and no thread's pool holds a handle: what the
    threads opened, they have closed. *)
Theorem stopped_monitor_holds_no_descriptor
    (wld : Pool.World) (evs : list Lifecycle.Event) (s : Lifecycle.System) :
  Lifecycle.run_events evs (Lifecycle.init wld) = Some s ->
  Lifecycle.isRunning s = false ->
  Lifecycle.stopping s = false ->
  Pool.fdtable (Worker.os (Lifecycle.shared s)) = Pool.fdtable wld
  /\ Lifecycle.live s = 0
  /\ forall w, In w (Lifecycle.threads s) ->
               openHandles (Worker.devices w) = [].
Proof.
  intros H Hr Hs.
  destruct (ledger_run (Pool.fdtable wld) evs _ _
              (invariant_init wld) (ledger_init wld) H) as (Inv & L).
  assert (Ha : Shape.allFinished (Lifecycle.threads s)).
  { destruct (invariant_threads s Inv) as [(_ & _ & Ha) | (ws & w & Ht & Ha)];
      [exact Ha|].
    destruct Inv as [n [R | [Hl | I]]].
    - destruct R as (R & _). unfold Lifecycle.isRunning in Hr. congruence.
    - destruct Hl as (_ & Hl & _). congruence.
    - now destruct I as (_ & _ & _ & _ & I). }
  split; [exact (ledger_all_finished _ s L Ha)|]. split.
  - unfold Lifecycle.live. now rewrite (filter_live_allFinished _ Ha).
  - intros w Hin. destruct L as (_ & _ & L2). apply L2; [exact Hin|].
    unfold Shape.allFinished in Ha. rewrite Forall_forall in Ha. now apply Ha.
Qed.

Lemma stopped_monitor_holds_no_descriptor_witness :
  exists s,
    Lifecycle.run_events
      (Scenario.keyPress
       ++ Lifecycle.CallStop :: Scenario.windDown ++ [Lifecycle.StopReturns])
      (Lifecycle.init (Scenario.machine [0; 1; 2]%Z)) = Some s
    /\ Pool.fdtable (Worker.os (Lifecycle.shared s)) = [0; 1; 2]%Z
    /\ Lifecycle.live s = 0
    /\ forall w, In w (Lifecycle.threads s) ->
                 openHandles (Worker.devices w) = [].
Proof.
  destruct (Lifecycle.run_events
              (Scenario.keyPress
               ++ Lifecycle.CallStop :: Scenario.windDown
                  ++ [Lifecycle.StopReturns])
              (Lifecycle.init (Scenario.machine [0; 1; 2]%Z))) as [s|] eqn:E;
    [|vm_compute in E; discriminate E].
  exists s. split; [reflexivity|].
  apply (stopped_monitor_holds_no_descriptor
           (Scenario.machine [0; 1; 2]%Z)
           (Scenario.keyPress
            ++ Lifecycle.CallStop :: Scenario.windDown
               ++ [Lifecycle.StopReturns]) s E).
  - vm_compute in E. injection E as <-. reflexivity.
  - vm_compute in E. injection E as <-. reflexivity.
Defined.

(* ------------------------------------------------------------------------- *)
(** ** Exceptions and the flag *)

Section ThrowFacts.
Local Open Scope Z_scope.

Lemma scanEV_none_iff (l : list ascii) (i j : Z) (flag : bool) :
  scanEV l i j flag = None <-> exists c, In c l /\ stoi16 c = None.
Proof.
  revert i j flag. induction l as [|c l IH]; intros i j flag; cbn [scanEV].
  - split; [discriminate | intros (c & [] & _)].
  - destruct (stoi16 c) as [n|] eqn:E.
    + destruct (scanNibble n bits i j flag) as [[i' j'] flag'].
      rewrite IH. split.
      * intros (x & Hx & Ex). exists x. split; [now right | exact Ex].
      * intros (x & [<- | Hx] & Ex); [congruence|]. now exists x.
    + split; [|reflexivity]. intros _. exists c. split; [now left | exact E].
Qed.

Lemma scanEV_some_allHex (l : list ascii) (i j : Z) (flag f : bool) :
  scanEV l i j flag = Some f -> allHex l.
Proof.
  intros H. apply Forall_forall. intros c Hc Ec.
  assert (N : scanEV l i j flag = None)
    by (apply scanEV_none_iff; now exists c).
  congruence.
Qed.

Lemma parseProp_keeps_flag (st st' : BlockState) (prop : string) :
  parseProp st prop = Some st' ->
  isInputDevice st = true -> isInputDevice st' = true.
Proof.
  unfold parseProp.
  destruct (starts_with idPrefix prop); [now intros [= <-]|].
  destruct (starts_with namePrefix prop); [now intros [= <-]|].
  destruct (starts_with handlerPrefix prop).
  { destruct (eventToken _); now intros [= <-]. }
  destruct (starts_with eventPrefix prop); [|now intros [= <-]].
  destruct (scanEV _ 0 0 (isInputDevice st)) as [f|] eqn:E; [|discriminate].
  intros [= <-] Hf. cbn. rewrite Hf in E.
  pose proof (scanEV_some_allHex _ _ _ _ _ E) as Hl.
  rewrite (scanEV_flagged _ 0 0 Hl) in E. congruence.
Qed.

End ThrowFacts.

(** X11: a capability-bitmask line makes discovery throw exactly when one of
    its characters after the prefix is not a hexadecimal digit; a line of
    any other kind never does. *)
Theorem bitmask_line_throws_iff_not_hex (st : BlockState) (ev prop : string) :
  (parseProp st (eventPrefix ++ ev) = None
   <-> exists c, In c (list_ascii_of_string ev) /\ stoi16 c = None)
  /\ (notEventLine prop = true -> parseProp st prop <> None).
Proof.
  split.
  - rewrite parseProp_eventLine.
    destruct (scanEV (rev (list_ascii_of_string ev)) 0 0 (isInputDevice st))
      as [f|] eqn:E.
    + split; [discriminate|]. intros (c & Hc & Ec).
      assert (N : scanEV (rev (list_ascii_of_string ev)) 0 0 (isInputDevice st)
                  = None).
      { apply scanEV_none_iff. exists c. split; [now apply in_rev in Hc | exact Ec].
      }
      congruence.
    + split; [|reflexivity]. intros _.
      apply scanEV_none_iff in E as (c & Hc & Ec).
      exists c. split; [now apply in_rev | exact Ec].
  - intros H. destruct (parseProp_otherLine st prop H) as (st' & E & _).
    congruence.
Qed.

(** X12: once a line of a block has set the flag, no later line of the
    block clears it. *)
Theorem flag_is_never_cleared (props : list string) (st st' : BlockState) :
  parseProps st props = Some st' ->
  isInputDevice st = true -> isInputDevice st' = true.
Proof.
  revert st. induction props as [|p props IH]; intros st; cbn.
  - now intros [= <-].
  - destruct (parseProp st p) as [st1|] eqn:E; [|discriminate].
    intros H Hf. apply (IH st1 H). eapply parseProp_keeps_flag; eauto.
Qed.

Lemma flag_is_never_cleared_witness :
  isInputDevice (mkBlock "" "" "" true) = true.
Proof.
  apply (flag_is_never_cleared ["B: EV=1"; "B: EV=0"]
           (mkBlock "" "" "" true) (mkBlock "" "" "" true)); reflexivity.
Defined.

(* ------------------------------------------------------------------------- *)
(** ** The trimmed name *)

Section TrimFacts.

Lemma leading_quotes (s : string) :
  exists a r, s = (replicate a dquote ++ r)%string /\ startsWithQuote r = false.
Proof.
  induction s as [|c s (a & r & E & Hr)].
  - now exists 0, "".
  - destruct (Ascii.eqb_spec c dquote) as [-> | N].
    + exists (S a), r. cbn. now rewrite <- E.
    + exists 0, (String c s). cbn. split; [reflexivity|].
      now apply Ascii.eqb_neq.
Qed.

Lemma trailing_quotes (r : string) :
  exists b body,
    r = (body ++ replicate b dquote)%string
    /\ endsWithQuote body = false
    /\ startsWithQuote body = startsWithQuote r && negb (empty body).
Proof.
  induction r as [|c r (b & body & E & He & Hs)].
  - now exists 0, "".
  - destruct body as [|c' body'].
    + cbn in E. destruct (Ascii.eqb_spec c dquote) as [-> | N].
      * exists (S b), "". cbn. rewrite <- E.
        repeat split; try reflexivity; now rewrite ?andb_false_r.
      * exists b, (String c ""). cbn. rewrite <- E.
        apply Ascii.eqb_neq in N. rewrite N.
        repeat split; try reflexivity; now rewrite ?andb_true_r.
    + exists b, (String c (String c' body')).
      rewrite E. split; [reflexivity|]. split; [exact He|].
      cbn. now rewrite andb_true_r.
Qed.

(** Every name is a run of quotes, a text without a quote at either end,
    and a run of quotes. *)
Lemma name_decomposes (s : string) :
  exists a b body,
    s = (replicate a dquote ++ body ++ replicate b dquote)%string
    /\ quoteFreeEnds body = true.
Proof.
  destruct (leading_quotes s) as (a & r & -> & Hr).
  destruct (trailing_quotes r) as (b & body & -> & He & Hs).
  exists a, b, body. split; [reflexivity|].
  unfold quoteFreeEnds. rewrite He, Hs, Hr. reflexivity.
Qed.

End TrimFacts.

(** X13: the name the trimming returns neither begins nor ends with a quote
    character, and trimming it again returns it unchanged. *)
Theorem trimmed_name_has_no_outer_quotes (raw : string) :
  quoteFreeEnds (trimName raw) = true
  /\ trimName (trimName raw) = trimName raw.
Proof.
  destruct (name_decomposes raw) as (a & b & body & -> & H).
  rewrite (trimName_runs a b body H). split; [exact H|].
  pose proof (trimName_runs 0 0 body H) as T.
  cbn [replicate append] in T. now rewrite append_nil_r in T.
Qed.

(* ------------------------------------------------------------------------- *)
(** ** The blocks and the lines *)

Section SplitFacts.

Lemma splitLoop_blocks (content : string) (fuel begin_ : nat)
    (deviceInfo : list string) :
  Forall (fun b => empty b = false
                   /\ exists pos len, b = substr pos len content) deviceInfo ->
  Forall (fun b => empty b = false
                   /\ exists pos len, b = substr pos len content)
         (splitLoop fuel content begin_ deviceInfo).
Proof.
  revert begin_ deviceInfo.
  induction fuel as [|fuel IH]; intros begin_ deviceInfo H; cbn [splitLoop].
  - exact H.
  - destruct (find sep begin_ content) as [end_|]; [|exact H].
    destruct (empty (substr begin_ (end_ - begin_) content)) eqn:E;
      cbn [negb]; apply IH; [exact H|].
    apply Forall_app. split; [exact H|].
    constructor; [|constructor].
    split; [exact E|]. now exists begin_, (end_ - begin_).
Qed.

Lemma list_ascii_of_string_app (s t : string) :
  list_ascii_of_string (s ++ t)
  = list_ascii_of_string s ++ list_ascii_of_string t.
Proof. induction s as [|a s IH]; cbn; [reflexivity | now rewrite IH]. Qed.

Lemma getline_all_tokens (delim : ascii) (s tok : string) :
  ~ In delim (list_ascii_of_string tok) ->
  Forall (fun t => ~ In delim (list_ascii_of_string t))
         (getline_all delim tok s).
Proof.
  revert tok. induction s as [|a s IH]; intros tok H; cbn [getline_all].
  - destruct (empty tok); constructor; [exact H | constructor].
  - destruct (Ascii.eqb_spec a delim) as [-> | N].
    + constructor; [exact H|]. apply IH. intros [].
    + apply IH. rewrite list_ascii_of_string_app, in_app_iff. cbn.
      intros [K | [K | []]]; [contradiction | congruence].
Qed.

End SplitFacts.

Section SplitEndFacts.

Lemma splitLoopWithin_ends (content : string) (fuel begin_ : nat)
    (deviceInfo : list string) :
  String.length content <= begin_ + fuel ->
  exists blocks, splitLoopWithin fuel content begin_ deviceInfo = Some blocks.
Proof.
  revert begin_ deviceInfo.
  induction fuel as [|fuel IH]; intros begin_ deviceInfo H;
    cbn [splitLoopWithin];
    destruct (find sep begin_ content) as [end_|] eqn:E;
    try (now exists deviceInfo).
  - apply find_sep_bounds in E. lia.
  - destruct (negb (empty (substr begin_ (end_ - begin_) content)));
      apply IH; cbn; lia.
Qed.

Lemma splitLoopWithin_agrees (content : string) (fuel begin_ : nat)
    (deviceInfo blocks : list string) :
  splitLoopWithin fuel content begin_ deviceInfo = Some blocks ->
  splitLoop (S fuel) content begin_ deviceInfo = blocks.
Proof.
  revert begin_ deviceInfo.
  induction fuel as [|fuel IH]; intros begin_ deviceInfo;
    cbn [splitLoopWithin]; cbn [splitLoop];
    destruct (find sep begin_ content) as [end_|] eqn:E;
    try (now intros [= <-]); try discriminate.
  destruct (negb (empty (substr begin_ (end_ - begin_) content)));
    intros H; apply IH in H; exact H.
Qed.

Lemma splitLoopWithin_blocks (content : string) :
  splitLoopWithin (String.length content) content 0 []
  = Some (splitBlocks content).
Proof.
  destruct (splitLoopWithin_ends content (String.length content) 0 [])
    as (blocks & E); [lia|].
  rewrite E. f_equal. symmetry.
  exact (splitLoopWithin_agrees _ _ _ _ _ E).
Qed.

End SplitEndFacts.

(** X14: the loop that cuts the registry into blocks ends: within as many
    iterations as the content has characters [find] returns [npos], and the
    blocks collected by then are those discovery goes on with.  Every block
    is a piece of the content that is not empty, and a content without a
    blank line has no block at all. *)
Theorem split_loop_ends (content : string) :
  splitLoopWithin (String.length content) content 0 []
  = Some (splitBlocks content)
  /\ Forall (fun b => empty b = false
                      /\ exists pos len, b = substr pos len content)
            (splitBlocks content)
  /\ (find sep 0 content = None -> splitBlocks content = []).
Proof.
  split; [apply splitLoopWithin_blocks|]. split.
  - apply splitLoop_blocks. constructor.
  - intros H. unfold splitBlocks. cbn [splitLoop]. now rewrite H.
Qed.

(** X15: every line of a block that reaches the line parser is not empty and
    holds no line feed. *)
Theorem props_are_nonempty_lines (info : string) :
  Forall (fun prop => empty prop = false
                      /\ ~ In newline (list_ascii_of_string prop))
         (propsOf info).
Proof.
  apply Forall_forall. intros p Hp.
  unfold propsOf in Hp. apply filter_In in Hp as (Hin & Hne).
  split; [now apply negb_true_iff in Hne|].
  pose proof (getline_all_tokens newline info "") as T.
  rewrite Forall_forall in T. apply T; [intros [] | exact Hin].
Qed.

(* ------------------------------------------------------------------------- *)
(** ** The passes of the inner loop *)

Section PassFacts.
Import Worker.
Local Open Scope Z_scope.

Lemma inner_now_cases (sh : Shared) (w : Locals) (t : Z) :
  pc w = InnerNow ->
  exists w',
    step (Clock t) sh w = Some (sh, w')
    /\ (pc w' = OuterTest <-> t < last w - 5)
    /\ (pc w' = InnerSelect <-> last w - 5 <= t).
Proof.
  intros Hpc. unfold step. rewrite Hpc.
  destruct (stale (last w) t) eqn:E; eexists; (split; [reflexivity|]); cbn.
  - apply stale_iff in E. split; split; intros; try lia; try discriminate;
      reflexivity.
  - assert (~ t < last w - 5) by (rewrite <- stale_iff; congruence).
    split; split; intros; try lia; try discriminate; reflexivity.
Qed.

Ltac split_pass H :=
  repeat match type of H with
         | context [if ?b then _ else _] => destruct b eqn:?
         | context [match ?x with _ => _ end] => destruct x eqn:?
         end;
  try discriminate H.

Lemma stamp_cases (o : Obs) (sh sh' : Shared) (w w' : Locals) :
  step o sh w = Some (sh', w') ->
  (m_lastOperateTime sh' <> m_lastOperateTime sh ->
   exists k, pc w = DrainStamp k /\ o = Clock (m_lastOperateTime sh'))
  /\ (forall k, pc w' = DrainStamp k ->
                pc w = DrainRead k
                /\ exists n type, o = Read n type /\ n = sizeof_event
                                  /\ isInteraction type = true).
Proof.
  unfold step. intros H.
  destruct (pc w) eqn:Epc; destruct o; try discriminate H;
    split_pass H; injection H as <- <-;
    (split;
     [ cbn; intros N; first [ now elim N | eexists; split; reflexivity ]
     | intros k' Hk; cbn -[drain] in Hk;
       repeat match type of Hk with
              | context [pc (drain ?a ?x)] =>
                  let D := fresh "D" in
                  destruct (pc_drain a x) as [D | [? D]]; rewrite D in Hk
              end;
       try discriminate Hk ]).
  injection Hk as <-. split; [reflexivity|].
  exists n, type. repeat split; auto. now apply Z.eqb_eq.
Qed.

Lemma assign_closed_fds (k : nat) (d : InputDevice) (ds : list InputDevice) :
  m_fd d = -1 ->
  map m_fd (Pool.assign k d ds) = map m_fd (Pool.assign k moved_from ds).
Proof.
  intros H. revert k. induction ds as [|x ds IH]; intros k; [now destruct k|].
  destruct k as [|k]; cbn; [now rewrite H | now rewrite IH].
Qed.

Lemma short_read_cases (sh : Shared) (w : Locals) (k : nat) (n type : Z) :
  pc w = DrainRead k -> n <= 0 ->
  exists sh' w',
    step (Read n type) sh w = Some (sh', w')
    /\ pc w' = InnerTest /\ isListening w' = false
    /\ Pool.FD_ISSET (m_fd (nth k (devices w) moved_from)) (allfds w') = false
    /\ Pool.fdtable (os sh')
       = without (openHandles [nth k (devices w) moved_from])
                 (Pool.fdtable (os sh))
    /\ map m_fd (devices w')
       = map m_fd (Pool.assign k moved_from (devices w))
    /\ exists w'', step Tau sh' w' = Some (sh', w'') /\ pc w'' = OuterTest.
Proof.
  intros Hpc Hn. unfold step at 1. rewrite Hpc.
  assert (E1 : (n =? sizeof_event) = false)
    by (apply Z.eqb_neq; unfold sizeof_event; lia).
  assert (E2 : (n <=? 0) = true) by now apply Z.leb_le.
  rewrite E1, E2.
  set (it := nth k (devices w) moved_from).
  destruct (close_cases (os sh) it) as (Cfd & _ & _ & _ & Ct & _).
  destruct (Pool.close (os sh) it) as [wld it'] eqn:Ec. cbn [fst snd] in *.
  do 2 eexists. split; [reflexivity|]. cbn.
  repeat split.
  - unfold Pool.FD_ISSET, Pool.FD_CLR, to_int. apply mem_fd_notIn.
    intros K. apply filter_In in K as (_ & K).
    rewrite Z.eqb_refl in K. discriminate.
  - exact Ct.
  - now apply assign_closed_fds.
  - unfold step. cbn. rewrite andb_false_r. eexists. split; reflexivity.
Qed.

End PassFacts.

(** X16: with the clock readings of the previous and of this pass not
    negative (and within [time_t]), the inner loop is left at line 362
    exactly when the clock reads more than five seconds less than at the
    previous pass, and goes on to [select] otherwise, in particular
    whenever the clock has not gone back. *)
Theorem staleness_test_fires_on_clock_going_back
    (sh : Worker.Shared) (w : Worker.Locals) (t : Z) :
  Worker.pc w = Worker.InnerNow ->
  (0 <= Worker.last w < 2 ^ 63)%Z ->
  (0 <= t < 2 ^ 63)%Z ->
  exists w',
    Worker.step (Worker.Clock t) sh w = Some (sh, w')
    /\ (Worker.pc w' = Worker.OuterTest <-> (t < Worker.last w - 5)%Z)
    /\ (Worker.pc w' = Worker.InnerSelect <-> (Worker.last w - 5 <= t)%Z).
Proof. intros H _ _. exact (inner_now_cases sh w t H). Qed.

Lemma staleness_test_fires_on_clock_going_back_witness :
  exists w',
    Worker.step (Worker.Clock 94) Scenario.sharedRunning (Scenario.listening 100)
    = Some (Scenario.sharedRunning, w')
    /\ (Worker.pc w' = Worker.OuterTest
        <-> (94 < Worker.last (Scenario.listening 100) - 5)%Z)
    /\ (Worker.pc w' = Worker.InnerSelect
        <-> (Worker.last (Scenario.listening 100) - 5 <= 94)%Z).
Proof.
  apply (staleness_test_fires_on_clock_going_back
           Scenario.sharedRunning (Scenario.listening 100) 94).
  - reflexivity.
  - cbn. lia.
  - lia.
Defined.

(** X17: a step of the thread changes [m_lastOperateTime] only at line 392,
    to the clock reading taken there, and line 392 is reached only from a
    [read] that returned a whole event of class key, relative motion or
    absolute motion. *)
Theorem timestamp_follows_full_interaction_read
    (o : Worker.Obs) (sh sh' : Worker.Shared) (w w' : Worker.Locals) :
  Worker.step o sh w = Some (sh', w') ->
  (Worker.m_lastOperateTime sh' <> Worker.m_lastOperateTime sh ->
   exists k, Worker.pc w = Worker.DrainStamp k
             /\ o = Worker.Clock (Worker.m_lastOperateTime sh'))
  /\ (forall k, Worker.pc w' = Worker.DrainStamp k ->
                Worker.pc w = Worker.DrainRead k
                /\ exists n type,
                     o = Worker.Read n type /\ n = Worker.sizeof_event
                     /\ Worker.isInteraction type = true).
Proof. exact (stamp_cases o sh sh' w w'). Qed.

(** X18: a [read] that returns nothing or an error closes the device it was
    made on, takes its handle out of the multiplex set and out of the
    process's descriptors, and ends the listening: the pass ends, and the
    next test of the inner loop leaves it for a rebuild. *)
Theorem short_read_retires_device
    (sh : Worker.Shared) (w : Worker.Locals) (k : nat) (n type : Z) :
  Worker.pc w = Worker.DrainRead k -> (n <= 0)%Z ->
  exists sh' w',
    Worker.step (Worker.Read n type) sh w = Some (sh', w')
    /\ Worker.pc w' = Worker.InnerTest /\ Worker.isListening w' = false
    /\ Pool.FD_ISSET (m_fd (nth k (Worker.devices w) moved_from))
                     (Worker.allfds w') = false
    /\ Pool.fdtable (Worker.os sh')
       = without (openHandles [nth k (Worker.devices w) moved_from])
                 (Pool.fdtable (Worker.os sh))
    /\ map m_fd (Worker.devices w')
       = map m_fd (Pool.assign k moved_from (Worker.devices w))
    /\ exists w'', Worker.step Worker.Tau sh' w' = Some (sh', w'')
                   /\ Worker.pc w'' = Worker.OuterTest.
Proof. exact (short_read_cases sh w k n type). Qed.

Lemma timestamp_follows_full_interaction_read_witness :
  (Worker.m_lastOperateTime Scenario.sharedRunning
   <> Worker.m_lastOperateTime Scenario.sharedRunning ->
   exists k, Worker.pc Scenario.reading = Worker.DrainStamp k
             /\ Worker.Read 24 EV_KEY
                = Worker.Clock (Worker.m_lastOperateTime Scenario.sharedRunning))
  /\ (forall k,
        Worker.pc (Worker.goto (Worker.DrainStamp 0) Scenario.reading)
        = Worker.DrainStamp k ->
        Worker.pc Scenario.reading = Worker.DrainRead k
        /\ exists n type,
             Worker.Read 24 EV_KEY = Worker.Read n type
             /\ n = Worker.sizeof_event
             /\ Worker.isInteraction type = true).
Proof.
  apply (timestamp_follows_full_interaction_read
           (Worker.Read 24 EV_KEY) Scenario.sharedRunning Scenario.sharedRunning
           Scenario.reading (Worker.goto (Worker.DrainStamp 0) Scenario.reading)).
  reflexivity.
Defined.

Lemma short_read_retires_device_witness :
  exists sh' w',
    Worker.step (Worker.Read 0 0) Scenario.sharedRunning Scenario.reading
    = Some (sh', w')
    /\ Worker.pc w' = Worker.InnerTest /\ Worker.isListening w' = false
    /\ Pool.FD_ISSET
         (m_fd (nth 0 (Worker.devices Scenario.reading) moved_from))
         (Worker.allfds w') = false
    /\ Pool.fdtable (Worker.os sh')
       = without
           (openHandles [nth 0 (Worker.devices Scenario.reading) moved_from])
           (Pool.fdtable (Worker.os Scenario.sharedRunning))
    /\ map m_fd (Worker.devices w')
       = map m_fd (Pool.assign 0 moved_from (Worker.devices Scenario.reading))
    /\ exists w'', Worker.step Worker.Tau sh' w' = Some (sh', w'')
                   /\ Worker.pc w'' = Worker.OuterTest.
Proof.
  apply (short_read_retires_device
           Scenario.sharedRunning Scenario.reading 0 0%Z 0%Z);
    [reflexivity | lia].
Defined.

(* ------------------------------------------------------------------------- *)
(** ** The threads of a system *)

Section CensusFacts.
Import Worker Lifecycle Shape.

Lemma halting_facts (n : nat) (s : System) :
  halting n s ->
  isRunning s = false
  /\ live s <= 1
  /\ completions (shared s) + live s = List.length (threads s).
Proof.
  intros (Hr & Hs & Hf & ws & w & Ht & Hn & Ha & Hc).
  unfold isRunning, live. rewrite Ht, filter_app, !length_app.
  rewrite (filter_live_allFinished ws Ha). cbn.
  destruct (finished w); cbn; repeat split; auto; lia.
Qed.

Lemma census (s : System) :
  invariant s ->
  live s <= 1
  /\ completions (shared s) + live s = List.length (threads s)
  /\ (isRunning s = true -> live s = 1 /\ stopping s = false).
Proof.
  intros [n [R | [H | I]]].
  - destruct (running_facts n s R) as (A & B & C & D).
    pose proof R as (_ & Hs & _).
    repeat split; auto; lia.
  - destruct (halting_facts n s H) as (A & B & C).
    repeat split; auto; congruence.
  - destruct (idle_facts n s I) as (A & B & C).
    pose proof I as (_ & _ & _ & Hn & _).
    repeat split; try lia; congruence.
Qed.

Lemma stop_cases (s : System) :
  invariant s -> stopping s = false ->
  (isRunning s = false -> stop s = s)
  /\ (isRunning s = true ->
      stopping (stop s) = true /\ isRunning (stop s) = false
      /\ forall evs s',
           forallb isRun evs = true ->
           run_events (evs ++ [StopReturns]) (stop s) = Some s' ->
           isRunning s' = false /\ stopping s' = false /\ live s' = 0
           /\ completions (shared s') = S (completions (shared s))).
Proof.
  intros Inv Hs. split.
  - unfold isRunning, stop, shutdown. now intros ->.
  - intros Hr. destruct Inv as [n [R | [H | I]]].
    + pose proof (stop_running n s R) as Sh.
      destruct (running_facts n s R) as (_ & _ & _ & Hc).
      pose proof Sh as (A & B & _).
      split; [exact B|]. split; [exact A|].
      intros evs s' Hevs Hrun. rewrite run_events_app in Hrun.
      destruct (run_events evs (stop s)) as [s1|] eqn:E1; [|discriminate].
      pose proof (halting_runs n evs _ _ Sh Hevs E1) as Sh1.
      cbn [run_events] in Hrun.
      destruct (sys_step StopReturns s1) as [s2|] eqn:E2; [|discriminate].
      injection Hrun as <-.
      pose proof (halting_returns n s1 s2 Sh1 E2) as Id.
      destruct (idle_facts (S n) s2 Id) as (X & Y & Z).
      pose proof Id as (_ & W & _).
      repeat split; auto. congruence.
    + destruct H as (_ & H & _). congruence.
    + destruct I as (I & _). unfold isRunning in Hr. congruence.
Qed.

End CensusFacts.

(** X19: in every state a system reaches, at most one thread is alive, the
    promises fulfilled are as many as the threads that have ended, and
    while [isRunning()] is true exactly one thread is alive and no [stop]
    is waiting. *)
Theorem at_most_one_thread_alive (s : Lifecycle.System) :
  Lifecycle.reachable s ->
  Lifecycle.live s <= 1
  /\ Worker.completions (Lifecycle.shared s) + Lifecycle.live s
     = List.length (Lifecycle.threads s)
  /\ (Lifecycle.isRunning s = true ->
      Lifecycle.live s = 1 /\ Lifecycle.stopping s = false).
Proof. intros H. apply census. now apply invariant_reachable. Qed.

Lemma at_most_one_thread_alive_witness :
  Lifecycle.live Scenario.afterKeyPress <= 1
  /\ Worker.completions (Lifecycle.shared Scenario.afterKeyPress)
     + Lifecycle.live Scenario.afterKeyPress
     = List.length (Lifecycle.threads Scenario.afterKeyPress)
  /\ (Lifecycle.isRunning Scenario.afterKeyPress = true ->
      Lifecycle.live Scenario.afterKeyPress = 1
      /\ Lifecycle.stopping Scenario.afterKeyPress = false).
Proof.
  apply (at_most_one_thread_alive Scenario.afterKeyPress).
  exists (Scenario.machine [0; 1; 2]%Z), Scenario.keyPress.
  vm_compute. reflexivity.
Defined.

(** X20: [stop()] on a monitor that is not running changes nothing.  On a
    running monitor it clears [m_isRunning] and waits; it returns only
    after steps of the thread, and when it has returned the monitor is not
    running, no thread is alive, and one more promise is fulfilled than
    before. *)
Theorem stop_waits_for_the_thread (s : Lifecycle.System) :
  Lifecycle.reachable s -> Lifecycle.stopping s = false ->
  (Lifecycle.isRunning s = false -> Lifecycle.stop s = s)
  /\ (Lifecycle.isRunning s = true ->
      Lifecycle.stopping (Lifecycle.stop s) = true
      /\ Lifecycle.isRunning (Lifecycle.stop s) = false
      /\ forall evs s',
           forallb Lifecycle.isRun evs = true ->
           Lifecycle.run_events (evs ++ [Lifecycle.StopReturns])
             (Lifecycle.stop s) = Some s' ->
           Lifecycle.isRunning s' = false
           /\ Lifecycle.stopping s' = false
           /\ Lifecycle.live s' = 0
           /\ Worker.completions (Lifecycle.shared s')
              = S (Worker.completions (Lifecycle.shared s))).
Proof.
  intros H Hs. apply stop_cases; [now apply invariant_reachable | exact Hs].
Qed.

Lemma stop_waits_for_the_thread_witness :
  (Lifecycle.isRunning Scenario.afterKeyPress = false ->
   Lifecycle.stop Scenario.afterKeyPress = Scenario.afterKeyPress)
  /\ (Lifecycle.isRunning Scenario.afterKeyPress = true ->
      Lifecycle.stopping (Lifecycle.stop Scenario.afterKeyPress) = true
      /\ Lifecycle.isRunning (Lifecycle.stop Scenario.afterKeyPress) = false
      /\ forall evs s',
           forallb Lifecycle.isRun evs = true ->
           Lifecycle.run_events (evs ++ [Lifecycle.StopReturns])
             (Lifecycle.stop Scenario.afterKeyPress) = Some s' ->
           Lifecycle.isRunning s' = false
           /\ Lifecycle.stopping s' = false
           /\ Lifecycle.live s' = 0
           /\ Worker.completions (Lifecycle.shared s')
              = S (Worker.completions
                     (Lifecycle.shared Scenario.afterKeyPress))).
Proof.
  apply (stop_waits_for_the_thread Scenario.afterKeyPress).
  - exists (Scenario.machine [0; 1; 2]%Z), Scenario.keyPress.
    vm_compute. reflexivity.
  - reflexivity.
Defined.
